(** * tracer-test: the instrumented probe pipeline and its status server

    A shallow embedding of [pkg/health/health.go], [pkg/httpclient/client.go],
    [pkg/logger] and the request loop of [main.go].

    - integers of fixed width are [Z] with their wrap-around written out;
    - Go's [(value, error)] pairs are a [result];
    - the trace sink, the log sink, the resolver, the underlying round
      tripper and the clock are external collaborators: the sinks are
      recording stores threaded through a state monad, the others are
      oracles of an environment record indexed by a logical clock. *)

From Stdlib Require Import ZArith String Ascii List Lia DecimalString DecimalPos DecimalZ.
From stdpp Require Import base gmap strings list.

Open Scope Z_scope.

(** ** Strings and formatting *)

Definition dquote : string := String "034"%char EmptyString.
Definition nl : string := String "010"%char EmptyString.

(** [%d] of the [fmt] package on an integer. *)
Definition fmt_d (z : Z) : string := NilZero.string_of_int (Z.to_int z).

(** [strings.Contains s sub]. *)
Fixpoint Contains (s sub : string) : bool :=
  String.prefix sub s ||
  match s with
  | EmptyString => false
  | String _ s' => Contains s' sub
  end.

(** [strings.HasPrefix s p]. *)
Definition HasPrefix (s p : string) : bool := String.prefix p s.

(** ** Fixed-width integers *)

Definition wrap_int64 (z : Z) : Z := (z + 2 ^ 63) mod 2 ^ 64 - 2 ^ 63.

Definition max_int64 : Z := 2 ^ 63 - 1.

(** ** Go errors *)

Inductive error : Type :=
| errors_New (msg : string)
| wrapError (msg : string) (err : error)      (* fmt.Errorf with one %w *)
| url_Error (Op URL : string) (Err : error).  (* net/url.Error *)

(** [err.Error()]. *)
Fixpoint Error (e : error) : string :=
  match e with
  | errors_New msg => msg
  | wrapError msg _ => msg
  | url_Error op u err => op +:+ " " +:+ dquote +:+ u +:+ dquote +:+ ": " +:+ Error err
  end.

(** [fmt.Errorf(prefix + "%w", err)]. *)
Definition Errorf_w (prefix : string) (err : error) : error :=
  wrapError (prefix +:+ Error err) err.

(** [errors.Unwrap]. *)
Definition Unwrap (e : error) : option error :=
  match e with
  | errors_New _ => None
  | wrapError _ err => Some err
  | url_Error _ _ err => Some err
  end.

Inductive result (A : Type) : Type :=
| Ok (a : A)
| Err (e : error).
Arguments Ok {A} a.
Arguments Err {A} e.

(** ** pkg/health *)

Module Health.

(** [type Server struct]: the two atomics ([server *http.Server] is the
    listener and carries no state of the handlers). *)
Record Server : Type := mkServer {
  ready : Z;      (* int32 *)
  requests : Z    (* int64 *)
}.

(** [New]: the zero value of both fields. *)
Definition New : Server := {| ready := 0; requests := 0 |}.

(** [SetReady]: [atomic.StoreInt32(&s.ready, 1)] or [(.., 0)]. *)
Definition SetReady (b : bool) (s : Server) : Server :=
  if b then {| ready := 1; requests := requests s |}
  else {| ready := 0; requests := requests s |}.

(** [IncrementRequests]: [atomic.AddInt64(&s.requests, 1)]. *)
Definition IncrementRequests (s : Server) : Server :=
  {| ready := ready s; requests := wrap_int64 (requests s + 1) |}.

(** *** [http.ResponseWriter]

    Headers are staged in [rw_header]; the first [WriteHeader] fixes the
    status and the headers that are sent; a [Write] before any
    [WriteHeader] sends 200 first. *)
Record ResponseWriter : Type := mkRW {
  rw_header : gmap string string;
  rw_sent : option (Z * gmap string string);
  rw_body : string
}.

Definition NewRecorder : ResponseWriter :=
  {| rw_header := ∅; rw_sent := None; rw_body := EmptyString |}.

Definition Header_Set (k v : string) (w : ResponseWriter) : ResponseWriter :=
  {| rw_header := <[k := v]> (rw_header w); rw_sent := rw_sent w; rw_body := rw_body w |}.

Definition WriteHeader (code : Z) (w : ResponseWriter) : ResponseWriter :=
  match rw_sent w with
  | Some _ => w
  | None => {| rw_header := rw_header w;
               rw_sent := Some (code, rw_header w);
               rw_body := rw_body w |}
  end.

Definition Write (data : string) (w : ResponseWriter) : ResponseWriter :=
  let w := WriteHeader 200 w in
  {| rw_header := rw_header w; rw_sent := rw_sent w; rw_body := rw_body w +:+ data |}.

Definition StatusOK : Z := 200.
Definition StatusServiceUnavailable : Z := 503.

(** What the peer receives. *)
Definition Code (w : ResponseWriter) : Z :=
  match rw_sent w with Some (c, _) => c | None => 200 end.
Definition SentHeader (k : string) (w : ResponseWriter) : option string :=
  match rw_sent w with Some (_, h) => h !! k | None => None end.

(** The JSON object [{"status":"<st>","timestamp":"<ts>"}]. *)
Definition status_json (st ts : string) : string :=
  "{" +:+ dquote +:+ "status" +:+ dquote +:+ ":" +:+ dquote +:+ st +:+ dquote +:+ ","
      +:+ dquote +:+ "timestamp" +:+ dquote +:+ ":" +:+ dquote +:+ ts +:+ dquote +:+ "}".

(** [healthHandler]; [now] is [time.Now().Format(time.RFC3339)]. *)
Definition healthHandler (s : Server) (now : string) (w : ResponseWriter) : ResponseWriter :=
  let w := Header_Set "Content-Type" "application/json" w in
  let w := WriteHeader StatusOK w in
  Write (status_json "healthy" now) w.

(** [readyHandler]. *)
Definition readyHandler (s : Server) (now : string) (w : ResponseWriter) : ResponseWriter :=
  let ready := ready s in
  let w := Header_Set "Content-Type" "application/json" w in
  if ready =? 1 then
    let w := WriteHeader StatusOK w in
    Write (status_json "ready" now) w
  else
    let w := WriteHeader StatusServiceUnavailable w in
    Write (status_json "not_ready" now) w.



(** *** Histories of mutator calls *)

Inductive Op : Type :=
| OpSetReady (b : bool)
| OpIncrementRequests.

Definition apply_op (s : Server) (o : Op) : Server :=
  match o with
  | OpSetReady b => SetReady b s
  | OpIncrementRequests => IncrementRequests s
  end.

Definition run (h : list Op) (s : Server) : Server := fold_left apply_op h s.

(** The argument of the most recent [SetReady] of a history, if any. *)
Fixpoint last_SetReady (h : list Op) : option bool :=
  match h with
  | [] => None
  | o :: h' =>
      match last_SetReady h' with
      | Some b => Some b
      | None => match o with OpSetReady b => Some b | OpIncrementRequests => None end
      end
  end.

Definition is_increment (o : Op) : bool :=
  match o with OpIncrementRequests => true | OpSetReady _ => false end.

(** How many [IncrementRequests] a history holds. *)
Definition increments (h : list Op) : Z :=
  Z.of_nat (length (List.filter is_increment h)).

(** Execution units running concurrently: each is a sequence of atomic
    operations on the shared server; a schedule names, step by step, the
    unit whose next operation runs. The run is [None] when the schedule
    names a unit with nothing left, or stops before every unit is done. *)
Fixpoint run_units (picks : list nat) (units : list (list Op)) (s : Server)
  : option Server :=
  match picks with
  | [] => if forallb (fun t => match t with [] => true | _ => false end) units
          then Some s else None
  | i :: picks' =>
      match units !! i with
      | Some (o :: t) => run_units picks' (<[i := t]> units) (apply_op s o)
      | _ => None
      end
  end.

End Health.

(** ** The trace sink and the log sink *)

Definition SpanID : Type := nat.

(** [context.Context], as far as the pipeline reads it: the active span. *)
Definition Context : Type := option SpanID.
Definition context_Background : Context := None.

(** [codes.Code] of OpenTelemetry, in the order of its constants. *)
Inductive Code : Type := codes_Unset | codes_Error | codes_Ok.

Definition code_rank (c : Code) : nat :=
  match c with codes_Unset => 0%nat | codes_Error => 1%nat | codes_Ok => 2%nat end.

Inductive AttrValue : Type :=
| attr_String (v : string)
| attr_Int (v : Z)
| attr_Bool (v : bool)
| attr_StringSlice (v : list string).

Definition KeyValue : Type := (string * AttrValue)%type.

Record Span : Type := mkSpan {
  span_name : string;
  span_parent : option SpanID;
  span_trace : SpanID;                 (* the root span of its trace *)
  span_attrs : list KeyValue;
  span_status : Code * string;
  span_errors : list error;
  span_ended : bool
}.

Inductive Level : Type := DebugLevel | InfoLevel | WarnLevel | ErrorLevel.

Inductive Field : Type :=
| zap_String (k v : string)
| zap_Int (k : string) (v : Z)
| zap_Int64 (k : string) (v : Z)
| zap_Duration (k : string) (ns : Z)
| zap_Error (e : error).

Record Entry : Type := mkEntry {
  entry_level : Level;
  entry_message : string;
  entry_fields : list Field
}.

(** A [*zap.Logger]: the fields attached by [With]. *)
Definition Logger : Type := list Field.

(** [net/url.URL], [http.Request], [http.Response] and [net.IP]: the
    parts the pipeline reads. *)
Record URL : Type := mkURL {
  Scheme : string;
  Hostname : string;
  Port : string;
  URL_String : string
}.

Record Request : Type := mkRequest {
  Method : string;
  req_URL : URL;
  req_ctx : Context
}.

Record Response : Type := mkResponse {
  StatusCode : Z;
  ContentLength : Z;
  Location : option URL   (* target of a redirect the client follows *)
}.

Record IP : Type := mkIP { IP_String : string }.

(** Calls that leave the process. *)
Inductive Call : Type :=
| call_LookupIP (host : string)
| call_RoundTrip (req : Request)
| call_ReadAll
| call_BodyClose
| call_Discard.   (* io.CopyN(io.Discard, resp.Body, maxBodySlurpSize) *)

Inductive Event : Type :=
| EvStart (id : SpanID) (parent : option SpanID) (name : string)
| EvEnd (id : SpanID)
| EvCall (c : Call).

(** The state the pipeline threads: the span store of the trace sink, the
    order in which spans were opened and closed, the entries handed to the
    log sink, and a logical clock counting the calls that left the
    process. *)
Record World : Type := mkWorld {
  next_span : SpanID;
  spans : gmap SpanID Span;
  events : list Event;
  logs : list Entry;
  clock : nat
}.

Definition empty_World : World :=
  {| next_span := 0%nat; spans := ∅; events := []; logs := []; clock := 0%nat |}.

(** What the outside answers; the [nat] is the logical clock at the call. *)
Record Env : Type := mkEnv {
  parseURL : string -> result URL;               (* inside http.NewRequestWithContext *)
  lookupIP : nat -> string -> result (list IP);  (* net.LookupIP *)
  baseRoundTrip : nat -> Request -> result Response;  (* http.DefaultTransport *)
  readAll : nat -> Response -> result string;    (* io.ReadAll(resp.Body) *)
  wall : nat -> Z;                               (* time.Now, in nanoseconds *)
  TraceID_String : SpanID -> string;
  SpanID_String : SpanID -> string
}.

(** *** A state monad over [World] *)

Definition M (A : Type) : Type := World -> A * World.

Definition ret {A : Type} (a : A) : M A := fun w => (a, w).

Definition bind {A B : Type} (m : M A) (k : A -> M B) : M B :=
  fun w => let (a, w') := m w in k a w'.

Declare Scope go_scope.
Delimit Scope go_scope with go.
Notation "x <- m ;; k" := (bind m (fun x => k))
  (at level 100, m at next level, right associativity) : go_scope.
Notation "' ( x , y ) <- m ;; k" := (bind m (fun '(x, y) => k))
  (at level 100, m at next level, x name, y name, right associativity) : go_scope.
Notation "m ;; k" := (bind m (fun _ => k))
  (at level 100, right associativity) : go_scope.

Definition exec {A : Type} (m : M A) (w : World) : World := snd (m w).
Definition eval {A : Type} (m : M A) (w : World) : A := fst (m w).

Definition emit (e : Event) : M unit :=
  fun w => (tt, {| next_span := next_span w; spans := spans w;
                   events := events w ++ [e]; logs := logs w; clock := clock w |}).

Definition update_span (id : SpanID) (f : Span -> Span) : M unit :=
  fun w => (tt, {| next_span := next_span w; spans := alter f id (spans w);
                   events := events w; logs := logs w; clock := clock w |}).

(** *** [trace.Tracer] and [trace.Span] *)

(** [tracer.Start(ctx, name, trace.WithAttributes(attrs...))]: a fresh
    span, child of the span of [ctx]; the context returned carries it. *)
Definition tracer_Start (ctx : Context) (name : string) (attrs : list KeyValue)
  : M (Context * SpanID) :=
  fun w =>
    let id := next_span w in
    let tr := match ctx with
              | Some p => match spans w !! p with Some ps => span_trace ps | None => id end
              | None => id
              end in
    let s := {| span_name := name; span_parent := ctx; span_trace := tr;
                span_attrs := attrs; span_status := (codes_Unset, EmptyString);
                span_errors := []; span_ended := false |} in
    ((Some id, id),
     {| next_span := S id; spans := <[id := s]> (spans w);
        events := events w ++ [EvStart id ctx name]; logs := logs w; clock := clock w |}).

(** The methods of a span change nothing once it has ended. *)
Definition recording (s : Span) (f : Span -> Span) : Span :=
  if span_ended s then s else f s.

Definition span_SetAttributes (id : SpanID) (attrs : list KeyValue) : M unit :=
  update_span id (fun s => recording s (fun s =>
    {| span_name := span_name s; span_parent := span_parent s; span_trace := span_trace s;
       span_attrs := span_attrs s ++ attrs; span_status := span_status s;
       span_errors := span_errors s; span_ended := span_ended s |})).

(** [span.SetStatus]: a status of lower rank than the current one is
    dropped, and the description is kept for [codes.Error] only. *)
Definition span_SetStatus (id : SpanID) (code : Code) (description : string) : M unit :=
  update_span id (fun s => recording s (fun s =>
    if (code_rank code <? code_rank (fst (span_status s)))%nat then s
    else
      {| span_name := span_name s; span_parent := span_parent s; span_trace := span_trace s;
         span_attrs := span_attrs s;
         span_status := (code, match code with codes_Error => description | _ => EmptyString end);
         span_errors := span_errors s; span_ended := span_ended s |})).

Definition span_RecordError (id : SpanID) (err : error) : M unit :=
  update_span id (fun s => recording s (fun s =>
    {| span_name := span_name s; span_parent := span_parent s; span_trace := span_trace s;
       span_attrs := span_attrs s; span_status := span_status s;
       span_errors := span_errors s ++ [err]; span_ended := span_ended s |})).

Definition span_End (id : SpanID) : M unit :=
  (update_span id (fun s =>
    {| span_name := span_name s; span_parent := span_parent s; span_trace := span_trace s;
       span_attrs := span_attrs s; span_status := span_status s;
       span_errors := span_errors s; span_ended := true |}) ;;
   emit (EvEnd id))%go.

(** [span.SpanContext().TraceID()]. *)
Definition span_TraceID (id : SpanID) : M SpanID :=
  fun w => (match spans w !! id with Some s => span_trace s | None => id end, w).

(** *** [*zap.Logger] *)

Definition logger_With (l : Logger) (fs : list Field) : Logger := l ++ fs.

Definition logger_log (l : Logger) (lvl : Level) (msg : string) (fs : list Field) : M unit :=
  fun w => (tt, {| next_span := next_span w; spans := spans w; events := events w;
                   logs := logs w ++ [{| entry_level := lvl; entry_message := msg;
                                         entry_fields := l ++ fs |}];
                   clock := clock w |}).

Definition logger_Info := fun l => logger_log l InfoLevel.
Definition logger_Warn := fun l => logger_log l WarnLevel.
Definition logger_Error := fun l => logger_log l ErrorLevel.

(** [pkg/logger]: the method [WithTraceContext] of [Logger]. *)
Definition WithTraceContext (l : Logger) (traceID spanID : string) : Logger :=
  logger_With l [zap_String "trace_id" traceID; zap_String "span_id" spanID].

(** *** The clock and the calls that leave the process *)

Definition tick_clock (c : Call) : M unit :=
  fun w => (tt, {| next_span := next_span w; spans := spans w;
                   events := events w ++ [EvCall c]; logs := logs w; clock := S (clock w) |}).

(** [time.Duration.Milliseconds]: an integer division truncated to zero. *)
Definition Milliseconds (ns : Z) : Z := Z.quot ns 1000000.

Open Scope go_scope.

Section Pipeline.

Variable env : Env.

Definition time_Now : M Z := fun w => (wall env (clock w), w).

Definition time_Since (start : Z) : M Z := fun w => (wall env (clock w) - start, w).

Definition net_LookupIP (host : string) : M (result (list IP)) :=
  fun w => (lookupIP env (clock w) host, snd (tick_clock (call_LookupIP host) w)).

Definition base_RoundTrip (req : Request) : M (result Response) :=
  fun w => (baseRoundTrip env (clock w) req, snd (tick_clock (call_RoundTrip req) w)).

Definition io_ReadAll (resp : Response) : M (result string) :=
  fun w => (readAll env (clock w) resp, snd (tick_clock call_ReadAll w)).

Definition Body_Close : M unit := tick_clock call_BodyClose.

(** [http.NewRequestWithContext(ctx, "GET", url, nil)]. *)
Definition http_NewRequestWithContext (ctx : Context) (method url : string) : result Request :=
  match parseURL env url with
  | Ok u => Ok {| Method := method; req_URL := u; req_ctx := ctx |}
  | Err e => Err e
  end.

(** [req.WithContext(ctx)]. *)
Definition WithContext (req : Request) (ctx : Context) : Request :=
  {| Method := Method req; req_URL := req_URL req; req_ctx := ctx |}.

(** ** pkg/httpclient *)

(** [ipToStrings]. *)
Definition ipToStrings (ips : list IP) : list string := map IP_String ips.

(** [(t *instrumentedTransport) RoundTrip]; the deferred [span.End()]
    runs last. *)
Definition RoundTrip (req : Request) : M (result Response) :=
  '(ctx, span) <- tracer_Start (req_ctx req) "http.transport"
                    [("http.method", attr_String (Method req));
                     ("http.url", attr_String (URL_String (req_URL req)))] ;;
  let req := WithContext req ctx in
  let host := Hostname (req_URL req) in
  let port := Port (req_URL req) in
  let port := if String.eqb port EmptyString then
                if String.eqb (Scheme (req_URL req)) "https" then "443" else "80"
              else port in
  '(_, dnsSpan) <- tracer_Start ctx "dns.resolve" [("dns.hostname", attr_String host)] ;;
  start <- time_Now ;;
  r <- net_LookupIP host ;;
  dnsDuration <- time_Since start ;;
  match r with
  | Err err =>
      span_RecordError dnsSpan err ;;
      span_SetStatus dnsSpan codes_Error (Error err)
  | Ok ips =>
      span_SetAttributes dnsSpan
        [("dns.addresses", attr_StringSlice (ipToStrings ips));
         ("dns.duration_ms", attr_Int (Milliseconds dnsDuration))] ;;
      span_SetStatus dnsSpan codes_Ok EmptyString
  end ;;
  span_End dnsSpan ;;
  '(_, tcpSpan) <- tracer_Start ctx "tcp.connect"
                     [("net.peer.name", attr_String host);
                      ("net.peer.port", attr_String port)] ;;
  start <- time_Now ;;
  r <- base_RoundTrip req ;;
  httpDuration <- time_Since start ;;
  match r with
  | Err err =>
      span_RecordError tcpSpan err ;;
      span_SetStatus tcpSpan codes_Error (Error err) ;;
      span_RecordError span err ;;
      span_SetStatus span codes_Error (Error err)
  | Ok resp =>
      span_SetAttributes tcpSpan [("tcp.duration_ms", attr_Int (Milliseconds httpDuration))] ;;
      span_SetStatus tcpSpan codes_Ok EmptyString ;;
      span_SetAttributes span
        [("http.response.status_code", attr_Int (StatusCode resp));
         ("http.response.size", attr_Int (ContentLength resp));
         ("http.duration_ms", attr_Int (Milliseconds httpDuration))] ;;
      if StatusCode resp >=? 400 then
        span_SetStatus span codes_Error ("HTTP " +:+ fmt_d (StatusCode resp))
      else
        span_SetStatus span codes_Ok EmptyString
  end ;;
  span_End tcpSpan ;;
  span_End span ;;
  ret r.

(** [Do] of net/http's [Client] over the instrumented transport: the
    request goes through [RoundTrip]; an error comes back inside a
    [url.Error]; a redirect is followed with a further round trip, up to
    ten requests in all. Before the next hop, and also before giving up
    on the eleventh, [Do] reads up to 2 KiB of the body of the response it
    redirects from, when its length is unknown or small, and closes that
    body. *)
Definition shouldRedirect (code : Z) : bool :=
  (code =? 301) || (code =? 302) || (code =? 303) || (code =? 307) || (code =? 308).

Definition maxBodySlurpSize : Z := 2048.

Definition discard_body (resp : Response) : M unit :=
  (if (ContentLength resp =? -1) || (ContentLength resp <=? maxBodySlurpSize)
   then tick_clock call_Discard
   else ret tt) ;;
  Body_Close.

Fixpoint Client_send (redirects : nat) (req : Request) : M (result Response) :=
  r <- RoundTrip req ;;
  match r with
  | Err err => ret (Err (url_Error "Get" (URL_String (req_URL req)) err))
  | Ok resp =>
      if shouldRedirect (StatusCode resp) then
        match Location resp with
        | None => ret (Ok resp)
        | Some loc =>
            discard_body resp ;;
            match redirects with
            | O => ret (Err (url_Error "Get" (URL_String loc)
                               (errors_New "stopped after 10 redirects")))
            | S n => Client_send n {| Method := Method req; req_URL := loc;
                                      req_ctx := req_ctx req |}
            end
        end
      else ret (Ok resp)
  end.

Definition Client_Do (req : Request) : M (result Response) := Client_send 9 req.

(** [type Client struct]: the transport is [RoundTrip] above and the
    tracer is the sink of the [World]. *)
Record Client : Type := mkClient { client_logger : Logger }.

(** [(c *Client) Get]; the deferred [span.End()] runs at each return. *)
Definition Get (c : Client) (ctx : Context) (url : string) : M (result Response) :=
  '(ctx, span) <- tracer_Start ctx "http.get"
                    [("http.method", attr_String "GET");
                     ("http.url", attr_String url)] ;;
  match http_NewRequestWithContext ctx "GET" url with
  | Err err =>
      span_RecordError span err ;;
      span_SetStatus span codes_Error (Error err) ;;
      span_End span ;;
      ret (Err (Errorf_w "failed to create request: " err))
  | Ok req =>
      r <- Client_Do req ;;
      match r with
      | Err err =>
          span_RecordError span err ;;
          span_SetStatus span codes_Error (Error err) ;;
          t0 <- time_Now ;;
          d <- time_Since t0 ;;
          logger_Error (client_logger c) "HTTP request failed"
            [zap_String "url" url; zap_Error err; zap_Duration "duration" d] ;;
          span_End span ;;
          ret (Err (Errorf_w "failed to make request: " err))
      | Ok resp =>
          span_SetAttributes span
            [("http.response.status_code", attr_Int (StatusCode resp));
             ("http.response.size", attr_Int (ContentLength resp))] ;;
          (if StatusCode resp >=? 400 then
             span_SetStatus span codes_Error ("HTTP " +:+ fmt_d (StatusCode resp)) ;;
             logger_Warn (client_logger c) "HTTP request returned error status"
               [zap_String "url" url; zap_Int "status_code" (StatusCode resp);
                zap_Int64 "response_size" (ContentLength resp)]
           else
             span_SetStatus span codes_Ok EmptyString ;;
             logger_Info (client_logger c) "HTTP request completed successfully"
               [zap_String "url" url; zap_Int "status_code" (StatusCode resp);
                zap_Int64 "response_size" (ContentLength resp)]) ;;
          span_End span ;;
          ret (Ok resp)
      end
  end.

(** ** main *)

(** The flags [makeRequest] reads. *)
Record Flags : Type := mkFlags {
  targetURL : string;
  otlpEndpoint : string;
  serviceName : string;
  interval : Z;         (* time.Duration, nanoseconds *)
  logLevel : string;
  logFormat : string
}.

Variable flags : Flags.

Definition traceCtx_of (log : Logger) (span : SpanID) : M Logger :=
  tid <- span_TraceID span ;;
  ret (WithTraceContext log (TraceID_String env tid) (SpanID_String env span)).

(** The attributes [makeRequest] gives the root span. *)
Definition cycle_attributes (url : string) (requestCount : Z) : list KeyValue :=
  [("service.name", attr_String (serviceName flags));
   ("request.target_url", attr_String url);
   ("request.interval_ms", attr_Int (Milliseconds (interval flags)));
   ("request.count", attr_Int requestCount)].

(** [makeRequest]; the deferred [resp.Body.Close()] and [span.End()] run,
    in that order, at each return. *)
Definition makeRequest (ctx : Context) (client : Client) (log : Logger)
           (url : string) (requestCount : Z) : M unit :=
  '(ctx, span) <- tracer_Start ctx "request.cycle" (cycle_attributes url requestCount) ;;
  start <- time_Now ;;
  r <- Get client ctx url ;;
  match r with
  | Err err =>
      span_RecordError span err ;;
      span_SetStatus span codes_Error (Error err) ;;
      traceCtx <- traceCtx_of log span ;;
      logger_Error traceCtx "Request failed" [zap_Error err] ;;
      span_End span
  | Ok resp =>
      b <- io_ReadAll resp ;;
      match b with
      | Err err =>
          span_RecordError span err ;;
          span_SetStatus span codes_Error (Error err) ;;
          traceCtx <- traceCtx_of log span ;;
          logger_Error traceCtx "Failed to read response body" [zap_Error err] ;;
          Body_Close ;;
          span_End span
      | Ok body =>
          duration <- time_Since start ;;
          let size := Z.of_nat (String.length body) in
          span_SetAttributes span
            [("request.cycle.duration_ms", attr_Int (Milliseconds duration));
             ("request.success", attr_Bool (StatusCode resp <? 400));
             ("http.status_code", attr_Int (StatusCode resp));
             ("response.size", attr_Int size)] ;;
          (if StatusCode resp >=? 400 then
             span_SetStatus span codes_Error ("HTTP " +:+ fmt_d (StatusCode resp)) ;;
             span_SetAttributes span
               [("request.error", attr_String ("HTTP " +:+ fmt_d (StatusCode resp)))]
           else
             span_SetStatus span codes_Ok EmptyString) ;;
          traceCtx <- traceCtx_of log span ;;
          (if StatusCode resp >=? 400 then
             logger_Warn traceCtx "HTTP request returned error status"
               [zap_String "url" url; zap_Int "status_code" (StatusCode resp);
                zap_Int "response_size" size; zap_Duration "duration" duration]
           else
             logger_Info traceCtx "HTTP request completed successfully"
               [zap_String "url" url; zap_Int "status_code" (StatusCode resp);
                zap_Int "response_size" size; zap_Duration "duration" duration]) ;;
          Body_Close ;;
          span_End span
      end
  end.

(** The process: the sinks, the health server's atomics and the local
    [requestCount] of [main]. *)
Record Proc : Type := mkProc {
  world : World;
  healthServer : Health.Server;
  requestCount : Z      (* int *)
}.

(** Which case the [select] of the loop takes. *)
Inductive Select : Type := case_Done | case_Tick.

Definition log : Logger := [].
Definition client : Client := {| client_logger := log |}.

(** One pass through [case <-ticker.C]. *)
Definition tick (p : Proc) : Proc :=
  let requestCount := wrap_int64 (requestCount p + 1) in
  let w := exec (makeRequest context_Background client log (targetURL flags) requestCount)
                (world p) in
  {| world := w;
     healthServer := Health.IncrementRequests (healthServer p);
     requestCount := requestCount |}.

(** The [for { select { ... } }] of [main] under a schedule of the cases
    taken; at the end of the schedule the loop is blocked in its
    [select]. *)
Fixpoint request_loop (sched : list Select) (p : Proc) : Proc :=
  match sched with
  | [] => p
  | case_Done :: _ =>
      {| world := exec (logger_Info log "Shutting down" []) (world p);
         healthServer := healthServer p;
         requestCount := requestCount p |}
  | case_Tick :: sched' => request_loop sched' (tick p)
  end.

(** [main] from the creation of the health server on. *)
Definition main (sched : list Select) : Proc :=
  let healthServer := Health.SetReady true Health.New in
  let w := exec (logger_Info log "Starting HTTP client with OTLP tracing"
                   [zap_String "target_url" (targetURL flags);
                    zap_String "otlp_endpoint" (otlpEndpoint flags);
                    zap_String "service_name" (serviceName flags);
                    zap_Duration "request_interval" (interval flags);
                    zap_String "log_level" (logLevel flags);
                    zap_String "log_format" (logFormat flags)] ;;
                 logger_Info log "Starting request loop" []) empty_World in
  request_loop sched {| world := w; healthServer := healthServer; requestCount := 0 |}.

(** The ticks a schedule completes: those before its first [case_Done]. *)
Fixpoint completed_ticks (sched : list Select) : nat :=
  match sched with
  | case_Tick :: sched' => S (completed_ticks sched')
  | _ => 0%nat
  end.

End Pipeline.

Arguments tick env flags p : assert.
Arguments request_loop env flags sched p : assert.
Arguments main env flags sched : assert.

(** ** pkg/tracer: the endpoint helpers *)

(** [s[n:]]. *)
Fixpoint string_drop (n : nat) (s : string) : string :=
  match n, s with
  | O, _ => s
  | S n', String _ s' => string_drop n' s'
  | S _, EmptyString => EmptyString
  end.

(** [strings.TrimPrefix s prefix]. *)
Definition TrimPrefix (s p : string) : string :=
  if HasPrefix s p then string_drop (String.length p) s else s.

(** [shouldUseInsecure]. *)
Definition shouldUseInsecure (endpoint : string) : bool :=
  if HasPrefix endpoint "https://" then false
  else if HasPrefix endpoint "http://" then true
  else if Contains endpoint "localhost" || Contains endpoint "127.0.0.1" then true
  else false.

(** [cleanEndpointURL]. *)
Definition cleanEndpointURL (endpoint : string) : string :=
  if HasPrefix endpoint "http://" then TrimPrefix endpoint "http://"
  else if HasPrefix endpoint "https://" then TrimPrefix endpoint "https://"
  else endpoint.

(** ** pkg/logger *)

(** [type Config struct]. *)
Record logger_Config : Type := mkLoggerConfig {
  cfg_Level : string;
  cfg_Format : string
}.

Inductive Encoder : Type := ConsoleEncoder | JSONEncoder.

(** The core [New] builds: its level and its encoder (the sink is
    standard output). *)
Record Core : Type := mkCore {
  core_level : Level;
  core_encoder : Encoder
}.

(** The [switch config.Level] of [New]. *)
Definition parse_level (level : string) : Level :=
  if String.eqb level "debug" then DebugLevel
  else if String.eqb level "info" then InfoLevel
  else if String.eqb level "warn" then WarnLevel
  else if String.eqb level "error" then ErrorLevel
  else InfoLevel.

(** [New] of pkg/logger: the second component of the Go pair is always
    [nil]. *)
Definition logger_New (config : logger_Config) : result Core :=
  let level := parse_level (cfg_Level config) in
  let encoder := if String.eqb (cfg_Format config) "console"
                 then ConsoleEncoder else JSONEncoder in
  Ok {| core_level := level; core_encoder := encoder |}.

(** [message[:len(message)-1]] when [message] ends in a newline, else
    [message]: the first statements of [jsonLogWriter.Write]. *)
Definition write_message (p : string) : string :=
  let message := p in
  if (0 <? String.length message)%nat &&
     match String.get (String.length message - 1) message with
     | Some c => Ascii.eqb c "010"%char
     | None => false
     end
  then String.substring 0 (String.length message - 1) message
  else message.

(** [(w *jsonLogWriter) Write]: the pair [(n, err)] it returns. *)
Definition jsonLogWriter_Write (logger : Logger) (p : string) : M (Z * option error) :=
  (logger_Info logger "otlp_export" [zap_String "message" (write_message p)] ;;
   ret (Z.of_nat (String.length p), None))%go.

(** ** Sample environments *)

Module Samples.

Definition sample_url : URL :=
  {| Scheme := "http"; Hostname := "probe.test"; Port := EmptyString;
     URL_String := "http://probe.test/get" |}.

Definition sample_flags : Flags :=
  {| targetURL := "http://probe.test/get"; otlpEndpoint := "http://localhost:4318";
     serviceName := "http-client"; interval := 5000000000;
     logLevel := "info"; logFormat := "json" |}.

Definition response (code : Z) : Response :=
  {| StatusCode := code; ContentLength := 13; Location := None |}.

(** A target that answers every probe with [code] and the body
    ["test response"]; the resolver answers [addrs]. *)
Definition env_status (code : Z) (addrs : result (list IP)) : Env :=
  {| parseURL := fun _ => Ok sample_url;
     lookupIP := fun _ _ => addrs;
     baseRoundTrip := fun _ _ => Ok (response code);
     readAll := fun _ _ => Ok "test response";
     wall := fun c => Z.of_nat c * 1000000;
     TraceID_String := fun n => fmt_d (Z.of_nat n);
     SpanID_String := fun n => fmt_d (Z.of_nat n) |}.

Definition addrs_ok : result (list IP) := Ok [{| IP_String := "192.0.2.7" |}].
Definition no_such_host : error := errors_New "lookup probe.test: no such host".
Definition connection_refused : error := errors_New "dial tcp 192.0.2.7:80: connect: connection refused".
Definition unexpected_EOF : error := errors_New "unexpected EOF".
Definition missing_scheme : error := errors_New "parse: missing protocol scheme".

(** An unroutable target: the round trip fails. *)
Definition env_refused : Env :=
  {| parseURL := fun _ => Ok sample_url;
     lookupIP := fun _ _ => addrs_ok;
     baseRoundTrip := fun _ _ => Err connection_refused;
     readAll := fun _ _ => Ok EmptyString;
     wall := fun c => Z.of_nat c * 1000000;
     TraceID_String := fun n => fmt_d (Z.of_nat n);
     SpanID_String := fun n => fmt_d (Z.of_nat n) |}.

(** A target that answers 200 and then drops the connection while the
    body is read. *)
Definition env_truncated : Env :=
  {| parseURL := fun _ => Ok sample_url;
     lookupIP := fun _ _ => addrs_ok;
     baseRoundTrip := fun _ _ => Ok (response 200);
     readAll := fun _ _ => Err unexpected_EOF;
     wall := fun c => Z.of_nat c * 1000000;
     TraceID_String := fun n => fmt_d (Z.of_nat n);
     SpanID_String := fun n => fmt_d (Z.of_nat n) |}.

(** A target URL that does not parse. *)
Definition env_malformed : Env :=
  {| parseURL := fun _ => Err missing_scheme;
     lookupIP := fun _ _ => addrs_ok;
     baseRoundTrip := fun _ _ => Ok (response 200);
     readAll := fun _ _ => Ok EmptyString;
     wall := fun c => Z.of_nat c * 1000000;
     TraceID_String := fun n => fmt_d (Z.of_nat n);
     SpanID_String := fun n => fmt_d (Z.of_nat n) |}.

Definition sample_request : Request :=
  {| Method := "GET"; req_URL := sample_url; req_ctx := None |}.

End Samples.

(** * Notions used in the statements *)

Definition int64_range (z : Z) : Prop := - 2 ^ 63 <= z <= max_int64.

Fixpoint error_size (e : error) : nat :=
  match e with
  | errors_New _ => 1%nat
  | wrapError _ err => S (error_size err)
  | url_Error _ _ err => S (error_size err)
  end.

(** ** What a round trip asks the outside *)

(** The request [RoundTrip] hands to the underlying round tripper. *)
Definition rt_request (req : Request) (w : World) : Request :=
  WithContext req (Some (next_span w)).

(** The answer of the diagnostic lookup of a round trip started in [w]. *)
Definition dns_answer (env : Env) (req : Request) (w : World) : result (list IP) :=
  lookupIP env (clock w) (Hostname (req_URL req)).

(** The answer of the underlying round trip of a round trip started in [w]. *)
Definition base_answer (env : Env) (req : Request) (w : World) : result Response :=
  baseRoundTrip env (S (clock w)) (rt_request req w).

(** The spans opened and closed, and the calls made, by one round trip. *)
Definition RoundTrip_events (req : Request) (w : World) : list Event :=
  let n := next_span w in
  [EvStart n (req_ctx req) "http.transport";
   EvStart (S n) (Some n) "dns.resolve";
   EvCall (call_LookupIP (Hostname (req_URL req)));
   EvEnd (S n);
   EvStart (S (S n)) (Some n) "tcp.connect";
   EvCall (call_RoundTrip (rt_request req w));
   EvEnd (S (S n));
   EvEnd n].

Definition is_base_call (e : Event) : bool :=
  match e with EvCall (call_RoundTrip _) => true | _ => false end.

(** The status a span gets from an outcome alone, and from an outcome and
    the HTTP status of the response. *)
Definition plain_status {A : Type} (r : result A) : Code * string :=
  match r with
  | Ok _ => (codes_Ok, EmptyString)
  | Err e => (codes_Error, Error e)
  end.

Definition http_status (r : result Response) : Code * string :=
  match r with
  | Ok resp => if StatusCode resp >=? 400
               then (codes_Error, "HTTP " +:+ fmt_d (StatusCode resp))
               else (codes_Ok, EmptyString)
  | Err e => (codes_Error, Error e)
  end.

Definition recorded {A : Type} (r : result A) : list error :=
  match r with Ok _ => [] | Err e => [e] end.

(** A span of the store that has ended, with its name, parent, status and
    recorded errors. *)
Definition closed_span (s : Span) (name : string) (parent : option SpanID)
           (status : Code * string) (errs : list error) : Prop :=
  span_name s = name /\ span_parent s = parent /\ span_status s = status /\
  span_errors s = errs /\ span_ended s = true.

(** The severity of the entries a probe outcome is logged with. *)
Definition outcome_level (r : result Response) : Level :=
  match r with
  | Err _ => ErrorLevel
  | Ok resp => if StatusCode resp >=? 400 then WarnLevel else InfoLevel
  end.

(** ** The order of events *)

(** [a] occurs strictly before [b] in [l]. *)
Definition before {A : Type} (a b : A) (l : list A) : Prop :=
  exists l1 l2 l3, l = l1 ++ a :: l2 ++ b :: l3.

Fixpoint started (evs : list Event) : list SpanID :=
  match evs with
  | [] => []
  | EvStart id _ _ :: evs' => id :: started evs'
  | _ :: evs' => started evs'
  end.

Fixpoint ended (evs : list Event) : list SpanID :=
  match evs with
  | [] => []
  | EvEnd id :: evs' => id :: ended evs'
  | _ :: evs' => ended evs'
  end.

(** The root spans opened in a log. *)
Fixpoint roots (evs : list Event) : list SpanID :=
  match evs with
  | [] => []
  | EvStart id None _ :: evs' => id :: roots evs'
  | _ :: evs' => roots evs'
  end.

(** Which span is opened under which. *)
Definition span_hierarchy : list (string * option string) :=
  [("request.cycle", None);
   ("http.get", Some "request.cycle");
   ("http.transport", Some "http.get");
   ("dns.resolve", Some "http.transport");
   ("tcp.connect", Some "http.transport")].

(** A stretch of the log in which spans open and close like brackets:
    under the span [p] (its identifier and name, if any), with the span
    identifiers from [n] up to [m], each span closed after everything
    opened inside it and before the next one opens. *)
Inductive nested : option (SpanID * string) -> SpanID -> SpanID -> list Event -> Prop :=
| nested_nil p n : nested p n n []
| nested_call p n m c seg :
    nested p n m seg -> nested p n m (EvCall c :: seg)
| nested_span p n m k name inner seg :
    In (name, option_map snd p) span_hierarchy ->
    nested (Some (n, name)) (S n) m inner ->
    nested p m k seg ->
    nested p n k (EvStart n (option_map fst p) name :: inner ++ EvEnd n :: seg).

(** What a well-bracketed stretch guarantees. *)
Record bracketed (p : option (SpanID * string)) (n m : SpanID) (seg : list Event) : Prop := {
  br_le : (n <= m)%nat;
  br_started : forall id, In id (started seg) -> (n <= id < m)%nat;
  br_ended : forall id, In id (ended seg) -> (n <= id < m)%nat;
  br_started_once : List.NoDup (started seg);
  br_ended_once : List.NoDup (ended seg);
  br_closed : forall c q cname, In (EvStart c q cname) seg ->
      before (EvStart c q cname) (EvEnd c) seg;
  br_parent : forall c q cname, In (EvStart c q cname) seg ->
      (q = option_map fst p /\ In (cname, option_map snd p) span_hierarchy) \/
      (exists pid pq pname,
          q = Some pid /\ In (EvStart pid pq pname) seg /\
          In (cname, Some pname) span_hierarchy /\
          before (EvStart pid pq pname) (EvStart c q cname) seg /\
          before (EvEnd c) (EvEnd pid) seg);
  br_roots : p = None -> forall r1 r2 nm1 nm2,
      In (EvStart r1 None nm1) seg -> In (EvStart r2 None nm2) seg -> (r1 < r2)%nat ->
      before (EvEnd r1) (EvStart r2 None nm2) seg
}.

(** From [w] to [w'] the log grew by a well-bracketed stretch under [p]. *)
Definition emits (p : option (SpanID * string)) (w w' : World) : Prop :=
  exists seg, events w' = events w ++ seg /\ nested p (next_span w) (next_span w') seg.

(** The spans [w] already holds are the same in [w']. *)
Definition span_frame (w w' : World) : Prop :=
  (next_span w <= next_span w')%nat /\
  forall id, (id < next_span w)%nat -> spans w' !! id = spans w !! id.

(** ** One tick, step by step *)

(** The world in which a tick started from [w] calls the probe client. *)
Definition probe_world (flags : Flags) (count : Z) (w : World) : World :=
  exec (tracer_Start context_Background "request.cycle"
          (cycle_attributes flags (targetURL flags) count)) w.

(** What the probe client hands back to [makeRequest] in that tick. *)
Definition probed (env : Env) (flags : Flags) (count : Z) (w : World) : result Response :=
  eval (Get env client (Some (next_span w)) (targetURL flags)) (probe_world flags count w).

(** What reading the body of that response gives. *)
Definition body_read (env : Env) (flags : Flags) (count : Z) (w : World) (resp : Response)
  : result string :=
  readAll env (clock (exec (Get env client (Some (next_span w)) (targetURL flags))
                           (probe_world flags count w))) resp.

(** The tick number a tick started in [p] carries. *)
Definition tick_count (p : Proc) : Z := wrap_int64 (requestCount p + 1).

(** A process that has done nothing yet. *)
Definition fresh_proc : Proc :=
  {| world := empty_World; healthServer := Health.New; requestCount := 0 |}.

(** The entries the log sink received between [w] and [w']. *)
Definition new_logs (w w' : World) : list Entry := drop (length (logs w)) (logs w').


(** ** Calls in a log *)

(** The calls that left the process, in order. *)
Fixpoint calls (evs : list Event) : list Call :=
  match evs with
  | [] => []
  | EvCall c :: evs' => c :: calls evs'
  | _ :: evs' => calls evs'
  end.

(** A call made by the transport or by net/http on the way to a response:
    every call but the [io.ReadAll] of [makeRequest]. *)
Definition client_call (c : Call) : bool :=
  match c with
  | call_ReadAll => false
  | call_LookupIP _ | call_RoundTrip _ | call_BodyClose | call_Discard => true
  end.

(** The calls end with an underlying round trip. *)
Definition ends_with_round_trip (cs : list Call) : Prop :=
  exists pre rq, cs = pre ++ [call_RoundTrip rq].

(** The events logged between [w] and [w']. *)
Definition new_events (w w' : World) : list Event := drop (length (events w)) (events w').

(** The identifiers of the spans opened between [w] and [w']. *)
Definition new_spans (w w' : World) : list SpanID :=
  seq (next_span w) (next_span w' - next_span w).

(** ** Ports, traces and messages *)

(** The port a round trip reports for its connection. *)
Definition peer_port (u : URL) : string :=
  if String.eqb (Port u) EmptyString then
    if String.eqb (Scheme u) "https" then "443" else "80"
  else Port u.

(** The trace a span started under [ctx] in [w] belongs to. *)
Definition trace_of (ctx : Context) (w : World) : SpanID :=
  match ctx with
  | Some p => match spans w !! p with Some ps => span_trace ps | None => next_span w end
  | None => next_span w
  end.

(** Every span with an identifier from [lo] up to [hi] is in the store of
    [w] and belongs to the trace [t]. *)
Definition traced (t : SpanID) (w : World) (lo hi : SpanID) : Prop :=
  forall id, (lo <= id < hi)%nat -> exists s, spans w !! id = Some s /\ span_trace s = t.

(** The world in which [Get] builds and sends its request. *)
Definition get_world (ctx : Context) (url : string) (w : World) : World :=
  exec (tracer_Start ctx "http.get"
          [("http.method", attr_String "GET"); ("http.url", attr_String url)]) w.

(** The message [Get] logs for an outcome of the call. *)
Definition get_message (r : result Response) : string :=
  match r with
  | Err _ => "HTTP request failed"
  | Ok resp => if StatusCode resp >=? 400 then "HTTP request returned error status"
               else "HTTP request completed successfully"
  end.

(** ** Tactics *)

(** Move the updates of a span onto the insertion that created it. *)
Ltac push_alter :=
  repeat (rewrite alter_insert_eq || (rewrite alter_insert_ne by lia)).

(** Project the fields of worlds written out as records. *)
Ltac world_simpl :=
  cbn [fst snd next_span spans events logs clock ret] in *.


(** Look a span up through the updates and insertions made after it. *)
Ltac span_lookup :=
  repeat (rewrite lookup_alter_eq || (rewrite lookup_alter_ne by lia)
          || rewrite lookup_insert_eq || (rewrite lookup_insert_ne by lia)).

(** An update of a span that leaves its trace alone. *)
Ltac trace_kept :=
  intros ?s; unfold recording;
  repeat match goal with
         | |- context [if ?b then _ else _] => destruct b
         end; reflexivity.

(** * Properties *)

(** ** Arithmetic and strings *)

Lemma wrap_int64_id z : int64_range z -> wrap_int64 z = z.
Proof.
  unfold int64_range, max_int64, wrap_int64. intros H.
  rewrite Z.mod_small; lia.
Qed.

Lemma wrap_int64_range z : int64_range (wrap_int64 z).
Proof.
  unfold int64_range, max_int64, wrap_int64.
  pose proof (Z.mod_pos_bound (z + 2 ^ 63) (2 ^ 64) ltac:(lia)). lia.
Qed.

Lemma wrap_int64_add_l a b : wrap_int64 (wrap_int64 a + b) = wrap_int64 (a + b).
Proof.
  unfold wrap_int64.
  replace ((a + 2 ^ 63) mod 2 ^ 64 - 2 ^ 63 + b + 2 ^ 63)
    with ((a + 2 ^ 63) mod 2 ^ 64 + b) by lia.
  rewrite Zplus_mod_idemp_l. f_equal. f_equal. lia.
Qed.

Lemma prefix_append p s : String.prefix p (p +:+ s) = true.
Proof.
  induction p as [|c p IH]; simpl.
  - now destruct s.
  - destruct (ascii_dec c c) as [_|N]; [exact IH | congruence].
Qed.

Lemma Contains_append_r p s : Contains (p +:+ s) p = true.
Proof.
  destruct p; simpl.
  - destruct s; reflexivity.
  - destruct (ascii_dec a a) as [_|N]; [|congruence].
    now rewrite prefix_append.
Qed.

Lemma Contains_append_l p s t : Contains s t = true -> Contains (p +:+ s) t = true.
Proof.
  induction p as [|c p IH]; simpl; intros H; [exact H|].
  rewrite (IH H). apply orb_true_r.
Qed.

Lemma Contains_refl s : Contains s s = true.
Proof.
  assert (H : String.prefix s s = true).
  { induction s as [|c s IH]; simpl; [reflexivity|].
    destruct (ascii_dec c c) as [_|N]; [exact IH | congruence]. }
  destruct s; simpl in *; [reflexivity|]. now rewrite H.
Qed.

(** The text of a wrapped error starts with the prefix it was given. *)
(** [%d] writes a decimal numeral that reads back as the number written. *)
Lemma fmt_d_reads_back z :
  option_map Z.of_int (NilZero.int_of_string (fmt_d z)) = Some z.
Proof.
  unfold fmt_d. rewrite NilZero.isi.
  - simpl. now rewrite DecimalZ.of_to.
  - destruct z; simpl; try discriminate.
    intros [= H]. now apply Unsigned.to_uint_nonnil in H.
  - destruct z; simpl; try discriminate.
    intros [= H]. now apply Unsigned.to_uint_nonnil in H.
Qed.

Lemma Errorf_w_HasPrefix prefix err : HasPrefix (Error (Errorf_w prefix err)) prefix = true.
Proof. apply prefix_append. Qed.

(** A wrapper is never the error it wraps. *)
Lemma wrapError_neq msg err : wrapError msg err <> err.
Proof. intros H. apply (f_equal error_size) in H. simpl in H. lia. Qed.

Lemma url_Error_neq op u err : url_Error op u err <> err.
Proof. intros H. apply (f_equal error_size) in H. simpl in H. lia. Qed.

(** ** The status state *)

Section HealthFacts.
Import Health.

Lemma ready_run h : forall s,
  ready (run h s) = match last_SetReady h with
                    | Some b => if b then 1 else 0
                    | None => ready s
                    end.
Proof.
  induction h as [|o h IH]; intros s; [reflexivity|].
  change (run (o :: h) s) with (run h (apply_op s o)).
  rewrite IH. simpl. destruct (last_SetReady h) as [b|]; [reflexivity|].
  destruct o as [[]|]; reflexivity.
Qed.

Lemma increments_cons o h :
  increments (o :: h) = (if is_increment o then 1 else 0) + increments h.
Proof. unfold increments. simpl. destruct (is_increment o); simpl length; lia. Qed.

Lemma increments_app h1 h2 : increments (h1 ++ h2) = increments h1 + increments h2.
Proof.
  unfold increments. rewrite List.filter_app, length_app. lia.
Qed.

Lemma increments_nonneg h : 0 <= increments h.
Proof. unfold increments. lia. Qed.


Lemma forallb_nil_concat (units : list (list Op)) :
  forallb (fun t => match t with [] => true | _ => false end) units = true ->
  concat units = [].
Proof.
  induction units as [|t units IH]; simpl; [reflexivity|].
  destruct t; simpl; [exact IH | discriminate].
Qed.

Lemma increments_concat_take (units : list (list Op)) : forall i o t,
  units !! i = Some (o :: t) ->
  increments (concat units) =
  (if is_increment o then 1 else 0) + increments (concat (<[i := t]> units)).
Proof.
  induction units as [|u units IH]; intros i o t H; [discriminate|].
  destruct i as [|i]; simpl in H.
  - injection H as ->. simpl. now rewrite increments_cons.
  - simpl. rewrite !increments_app, (IH i o t H). lia.
Qed.

(** However the units are scheduled, the counter ends where a
    sequential run of all their operations ends. *)
Lemma run_units_requests picks : forall units s s',
  int64_range (requests s) ->
  run_units picks units s = Some s' ->
  requests s' = wrap_int64 (requests s + increments (concat units)).
Proof.
  induction picks as [|i picks IH]; intros units s s' Hs H; simpl in H.
  - destruct (forallb _ units) eqn:E; [|discriminate]. injection H as <-.
    rewrite (forallb_nil_concat _ E). unfold increments. simpl.
    rewrite Z.add_0_r. now rewrite wrap_int64_id.
  - destruct (units !! i) as [[|o t]|] eqn:E; try discriminate.
    rewrite (increments_concat_take _ _ _ _ E).
    destruct o as [b|]; simpl in H.
    + apply IH in H; [|destruct b; exact Hs]. rewrite H. destruct b; reflexivity.
    + apply IH in H; [|apply wrap_int64_range]. rewrite H. simpl.
      rewrite wrap_int64_add_l. f_equal. lia.
Qed.

End HealthFacts.

(** ** The request loop and the counter *)

Section LoopCounter.
Variable env : Env.
Variable flags : Flags.

Lemma request_loop_requests sched : forall p,
  int64_range (Health.requests (healthServer p)) ->
  Health.requests (healthServer (request_loop env flags sched p)) =
  wrap_int64 (Health.requests (healthServer p) + Z.of_nat (completed_ticks sched)).
Proof.
  induction sched as [|c sched IH]; intros p Hp.
  - simpl. rewrite Z.add_0_r. now rewrite wrap_int64_id.
  - destruct c.
    + simpl. rewrite Z.add_0_r. now rewrite wrap_int64_id.
    + change (request_loop env flags (case_Tick :: sched) p)
        with (request_loop env flags sched (tick env flags p)).
      rewrite IH by apply wrap_int64_range.
      change (completed_ticks (case_Tick :: sched)) with (S (completed_ticks sched)).
      simpl healthServer. simpl Health.requests.
      rewrite wrap_int64_add_l. f_equal. lia.
Qed.

Lemma request_loop_ready sched : forall p,
  Health.ready (healthServer (request_loop env flags sched p)) = Health.ready (healthServer p).
Proof.
  induction sched as [|c sched IH]; intros p; [reflexivity|].
  destruct c; [reflexivity|].
  change (request_loop env flags (case_Tick :: sched) p)
    with (request_loop env flags sched (tick env flags p)).
  now rewrite IH.
Qed.

Lemma main_requests sched :
  Health.requests (healthServer (main env flags sched)) =
  wrap_int64 (Z.of_nat (completed_ticks sched)).
Proof.
  unfold main. rewrite request_loop_requests.
  - reflexivity.
  - unfold int64_range, max_int64. simpl. lia.
Qed.

Lemma main_ready sched : Health.ready (healthServer (main env flags sched)) = 1.
Proof. unfold main. now rewrite request_loop_ready. Qed.

End LoopCounter.

Lemma completed_ticks_repeat n : completed_ticks (repeat case_Tick n) = n.
Proof. induction n as [|n IH]; simpl; [reflexivity | now rewrite IH]. Qed.

(** ** Claims on the status state and the status server *)

(** C9. [SetReady] is idempotent: a second call with the same argument --
    and any number of further ones -- leaves the whole state as the first
    call left it; the call never touches the request counter. *)
Theorem SetReady_idempotent (s : Health.Server) (b : bool) (n : nat) :
  Health.SetReady b (Health.SetReady b s) = Health.SetReady b s /\
  Nat.iter (S n) (Health.SetReady b) s = Health.SetReady b s /\
  Health.ready (Health.SetReady b (Health.SetReady b s)) = Health.ready (Health.SetReady b s) /\
  Health.requests (Health.SetReady b (Health.SetReady b s)) = Health.requests s.
Proof.
  assert (H1 : forall t, Health.SetReady b (Health.SetReady b t) = Health.SetReady b t)
    by (intros t; destruct b; reflexivity).
  repeat split.
  - apply H1.
  - induction n as [|n IH]; [reflexivity|].
    change (Nat.iter (S (S n)) (Health.SetReady b) s)
      with (Health.SetReady b (Nat.iter (S n) (Health.SetReady b) s)).
    rewrite IH. apply H1.
  - now rewrite H1.
  - destruct b; reflexivity.
Qed.

(** C2. Whatever calls of the mutators came before, the ready endpoint
    answers 200 with status [ready] when the most recent [SetReady] had the
    argument [true], and 503 with status [not_ready] when it had the
    argument [false] or when [SetReady] was never called. The body is the
    JSON object with the two members [status] and [timestamp], spelled out
    character by character; [q] is the double quote. *)
Theorem readyHandler_gating (h : list Health.Op) (now : string) :
  let w := Health.readyHandler (Health.run h Health.New) now Health.NewRecorder in
  let q := String "034"%char EmptyString in
  Health.SentHeader "Content-Type" w = Some "application/json" /\
  match Health.last_SetReady h with
  | Some true =>
      Health.Code w = 200 /\ Health.rw_body w = Health.status_json "ready" now /\
      Health.rw_body w =
        "{" +:+ q +:+ "status" +:+ q +:+ ":" +:+ q +:+ "ready" +:+ q +:+ "," +:+
        q +:+ "timestamp" +:+ q +:+ ":" +:+ q +:+ now +:+ q +:+ "}"
  | Some false | None =>
      Health.Code w = 503 /\ Health.rw_body w = Health.status_json "not_ready" now /\
      Health.rw_body w =
        "{" +:+ q +:+ "status" +:+ q +:+ ":" +:+ q +:+ "not_ready" +:+ q +:+ "," +:+
        q +:+ "timestamp" +:+ q +:+ ":" +:+ q +:+ now +:+ q +:+ "}"
  end.
Proof.
  cbv zeta. unfold Health.readyHandler. rewrite ready_run.
  destruct (Health.last_SetReady h) as [[]|];
    (split; [reflexivity|split; [reflexivity|split; reflexivity]]).
Qed.


(** C1. Every pass through the ticker case runs the probe
    and then increments the counter, whatever the probe did. Started by
    [main], the loop leaves the counter at the number [N] of completed
    ticks as long as [N] fits the signed 64-bit counter, and increments
    made by concurrent units under any schedule add up to their number,
    within the same bound. *)
Theorem request_counter_counts_ticks
  (env : Env) (flags : Flags) (sched : list Select) (p : Proc)
  (picks : list nat) (units : list (list Health.Op)) (s' : Health.Server)
  (Hn : Z.of_nat (completed_ticks sched) <= max_int64)
  (Hrun : Health.run_units picks units Health.New = Some s')
  (Hu : Health.increments (concat units) <= max_int64) :
  healthServer (tick env flags p) = Health.IncrementRequests (healthServer p) /\
  Health.requests (healthServer (main env flags sched)) = Z.of_nat (completed_ticks sched) /\
  Health.requests s' = Health.increments (concat units).
Proof.
  split; [reflexivity|]. split.
  - rewrite main_requests. apply wrap_int64_id.
    unfold int64_range. split; [|exact Hn].
    pose proof (Nat2Z.is_nonneg (completed_ticks sched)). lia.
  - apply run_units_requests in Hrun; [|unfold int64_range, max_int64; simpl; lia].
    rewrite Hrun. simpl. apply wrap_int64_id. unfold int64_range. split; [|exact Hu].
    pose proof (increments_nonneg (concat units)). lia.
Qed.

Lemma request_counter_counts_ticks_witness :
  let sched := [case_Tick; case_Tick; case_Tick; case_Done; case_Tick] in
  let units := [[Health.OpIncrementRequests; Health.OpIncrementRequests];
                [Health.OpSetReady true; Health.OpIncrementRequests]] in
  Health.requests (healthServer (main Samples.env_refused Samples.sample_flags sched)) = 3 /\
  Health.requests {| Health.ready := 1; Health.requests := 3 |} = Health.increments (concat units).
Proof.
  cbv zeta.
  pose proof (request_counter_counts_ticks Samples.env_refused Samples.sample_flags
                [case_Tick; case_Tick; case_Tick; case_Done; case_Tick]
                {| world := empty_World; healthServer := Health.New; requestCount := 0 |}
                [0; 1; 1; 0]%nat
                [[Health.OpIncrementRequests; Health.OpIncrementRequests];
                 [Health.OpSetReady true; Health.OpIncrementRequests]]
                {| Health.ready := 1; Health.requests := 3 |}
                ltac:(vm_compute; discriminate) ltac:(reflexivity)
                ltac:(vm_compute; discriminate)) as [_ [H1 H2]].
  split; [exact H1 | exact H2].
Defined.

(** C1 does not extend past the range of the counter: after [2^63] ticks
    the [int64] has wrapped to [-2^63]. *)
Lemma request_counter_wraps :
  Health.requests
    (healthServer (main Samples.env_refused Samples.sample_flags
                     (repeat case_Tick (Z.to_nat (2 ^ 63))))) <>
  Z.of_nat (completed_ticks (repeat case_Tick (Z.to_nat (2 ^ 63)))).
Proof.
  rewrite main_requests, completed_ticks_repeat.
  rewrite Z2Nat.id by (apply Z.pow_nonneg; lia).
  intros H. vm_compute in H. discriminate H.
Qed.

(** ** Order in a log *)

Section Before.
Context {A : Type}.
Implicit Types (a b x : A) (l r : list A).

Lemma before_app_l a b l r : before a b l -> before a b (l ++ r).
Proof.
  intros (l1 & l2 & l3 & ->). exists l1, l2, (l3 ++ r).
  now repeat (rewrite <- app_assoc; simpl).
Qed.

Lemma before_app_r a b l r : before a b r -> before a b (l ++ r).
Proof.
  intros (l1 & l2 & l3 & ->). exists (l ++ l1), l2, l3.
  now rewrite <- app_assoc.
Qed.

Lemma before_cons a b x l : before a b l -> before a b (x :: l).
Proof. apply (before_app_r a b [x] l). Qed.

Lemma before_head a b l : In b l -> before a b (a :: l).
Proof.
  intros H. apply in_split in H as (l2 & l3 & ->). now exists [], l2, l3.
Qed.

Lemma before_split a b l r : In a l -> In b r -> before a b (l ++ r).
Proof.
  intros Ha Hb. apply in_split in Ha as (l1 & l2 & ->).
  apply in_split in Hb as (r1 & r2 & ->).
  exists l1, (l2 ++ r1), r2.
  now repeat (rewrite <- app_assoc; simpl).
Qed.

Lemma before_In_l a b l : before a b l -> In a l.
Proof. intros (l1 & l2 & l3 & ->). apply in_or_app. right. now left. Qed.

Lemma before_In_r a b l : before a b l -> In b l.
Proof.
  intros (l1 & l2 & l3 & ->). apply in_or_app. right. right.
  apply in_or_app. right. now left.
Qed.
End Before.

Lemma started_app l r : started (l ++ r) = started l ++ started r.
Proof.
  induction l as [|e l IH]; [reflexivity|].
  destruct e; simpl; now rewrite IH.
Qed.

Lemma ended_app l r : ended (l ++ r) = ended l ++ ended r.
Proof.
  induction l as [|e l IH]; [reflexivity|].
  destruct e; simpl; now rewrite IH.
Qed.

Lemma roots_app l r : roots (l ++ r) = roots l ++ roots r.
Proof.
  induction l as [|e l IH]; [reflexivity|].
  destruct e as [id [q|] nm| |]; simpl; now rewrite IH.
Qed.

Lemma In_started id evs : In id (started evs) <-> exists q nm, In (EvStart id q nm) evs.
Proof.
  induction evs as [|e evs IH]; simpl.
  - split; [intros [] | intros (q & nm & [])].
  - destruct e as [id' q' nm'| |]; simpl; rewrite ?IH.
    + split.
      * intros [<- | (q & nm & H)]; [exists q', nm'; now left | exists q, nm; now right].
      * intros (q & nm & [H | H]); [injection H as -> _ _; now left | right; eauto].
    + split; intros (q & nm & H); exists q, nm; [now right | destruct H; [discriminate | assumption]].
    + split; intros (q & nm & H); exists q, nm; [now right | destruct H; [discriminate | assumption]].
Qed.

Lemma In_ended id evs : In id (ended evs) <-> In (EvEnd id) evs.
Proof.
  induction evs as [|e evs IH]; simpl; [reflexivity|].
  destruct e as [id' q' nm'|id'|]; simpl; rewrite ?IH.
  - split; [now right | intros [H | H]; [discriminate | assumption]].
  - split; (intros [H | H]; [left; congruence | now right]).
  - split; [now right | intros [H | H]; [discriminate | assumption]].
Qed.

(** ** Well-bracketed logs *)

Lemma nested_app p n m seg : nested p n m seg ->
  forall k seg', nested p m k seg' -> nested p n k (seg ++ seg').
Proof.
  induction 1 as [p n | p n m c seg H IH | p n m k name inner seg Hn Hi IHi Hs IHs];
    intros k' seg' H'.
  - exact H'.
  - simpl. constructor. now apply IH.
  - rewrite <- app_comm_cons, <- app_assoc, <- app_comm_cons.
    econstructor; eauto.
Qed.

Lemma nested_calls p n cs : Forall (fun e => exists c, e = EvCall c) cs -> nested p n n cs.
Proof.
  induction 1 as [|e cs [c ->] _ IH]; constructor. exact IH.
Qed.


Lemma In_span_log (e : Event) n x inner seg :
  In e (x :: inner ++ EvEnd n :: seg) ->
  e = x \/ In e inner \/ e = EvEnd n \/ In e seg.
Proof.
  intros [H | H]; [now left|]. apply in_app_or in H as [H | [H | H]]; auto.
Qed.

Lemma nested_bracketed p n m seg : nested p n m seg -> bracketed p n m seg.
Proof.
  induction 1 as [p n | p n m c seg H IH | p n m k name inner seg Hn Hi IHi Hs IHs].
  - constructor; simpl; try (intros; contradiction); constructor.
  - destruct IH as [I1 I2 I3 I4 I5 I6 I7 I8].
    constructor; simpl; try assumption.
    + intros c' q cname [E | E]; [discriminate|]. apply before_cons. now apply I6.
    + intros c' q cname [E | E]; [discriminate|].
      destruct (I7 _ _ _ E) as [L | (pid & pq & pname & Hq & Hin & Hh & Hb1 & Hb2)];
        [now left|].
      right. exists pid, pq, pname. repeat split; try assumption.
      * now right.
      * now apply before_cons.
      * now apply before_cons.
    + intros Hp r1 r2 nm1 nm2 [E1 | E1] [E2 | E2] Hlt; try discriminate.
      apply before_cons. eapply I8; eauto.
  - destruct IHi as [A1 A2 A3 A4 A5 A6 A7 _], IHs as [B1 B2 B3 B4 B5 B6 B7 B8].
    assert (Hst : started (EvStart n (option_map fst p) name :: inner ++ EvEnd n :: seg)
                  = n :: started inner ++ started seg)
      by (simpl; now rewrite started_app).
    assert (Hen : ended (EvStart n (option_map fst p) name :: inner ++ EvEnd n :: seg)
                  = ended inner ++ n :: ended seg)
      by (simpl; now rewrite ended_app).
    assert (Hinner_root : forall c nm, In (EvStart c None nm) inner -> False).
    { intros c nm Hc. destruct (A7 _ _ _ Hc) as [[E _] | (pid & pq & pname & E & _)];
        discriminate. }
    constructor.
    + lia.
    + rewrite Hst. intros id [<- | Hid]; [lia|].
      apply in_app_or in Hid as [Hid | Hid]; [apply A2 in Hid | apply B2 in Hid]; lia.
    + rewrite Hen. intros id Hid.
      apply in_app_or in Hid as [Hid | [<- | Hid]];
        [apply A3 in Hid | | apply B3 in Hid]; lia.
    + rewrite Hst. constructor.
      * intros Hid. apply in_app_or in Hid as [Hid | Hid];
          [apply A2 in Hid | apply B2 in Hid]; lia.
      * apply List.NoDup_app; try assumption.
        intros a Ha Hb. apply A2 in Ha. apply B2 in Hb. lia.
    + rewrite Hen. apply List.NoDup_app; try assumption.
      * constructor; [|assumption]. intros Hid. apply B3 in Hid. lia.
      * intros a Ha [<- | Hb]; [apply A3 in Ha | apply A3 in Ha; apply B3 in Hb]; lia.
    + intros c q cname Hc.
      apply In_span_log in Hc as [E | [E | [E | E]]]; try discriminate.
      * injection E as -> -> ->. apply before_head, in_or_app. right. now left.
      * apply before_cons, before_app_l. now apply A6.
      * apply before_cons, before_app_r, before_cons. now apply B6.
    + intros c q cname Hc.
      apply In_span_log in Hc as [E | [E | [E | E]]]; try discriminate.
      * injection E as -> -> ->. left. now split.
      * right.
        destruct (A7 _ _ _ E) as [[Hq Hh] | (pid & pq & pname & Hq & Hin & Hh & Hb1 & Hb2)].
        -- simpl in Hq, Hh. exists n, (option_map fst p), name.
           repeat split; try assumption.
           ++ now left.
           ++ apply before_head, in_or_app. now left.
           ++ apply before_cons, before_split; [|now left].
              apply (before_In_r _ _ _ (A6 _ _ _ E)).
        -- exists pid, pq, pname. repeat split; try assumption.
           ++ right. apply in_or_app. now left.
           ++ now apply before_cons, before_app_l.
           ++ now apply before_cons, before_app_l.
      * destruct (B7 _ _ _ E) as [L | (pid & pq & pname & Hq & Hin & Hh & Hb1 & Hb2)];
          [now left|].
        right. exists pid, pq, pname. repeat split; try assumption.
        -- right. apply in_or_app. right. now right.
        -- now apply before_cons, before_app_r, before_cons.
        -- now apply before_cons, before_app_r, before_cons.
    + intros Hp r1 r2 nm1 nm2 H1 H2 Hlt.
      apply In_span_log in H1 as [E1 | [E1 | [E1 | E1]]]; try discriminate;
        [| now apply Hinner_root in E1 |];
        (apply In_span_log in H2 as [E2 | [E2 | [E2 | E2]]]; try discriminate;
         [| now apply Hinner_root in E2 |]).
      * injection E1 as -> _ _. injection E2 as -> _ _. lia.
      * injection E1 as -> _ _.
        apply before_cons, before_app_r, before_head. exact E2.
      * injection E2 as -> _ _.
        assert (In r1 (started seg)) as Hr by (apply In_started; eauto).
        apply B2 in Hr. lia.
      * apply before_cons, before_app_r, before_cons. eapply B8; eauto.
Qed.

(** Nothing opened inside a span is a root. *)
Lemma nested_roots_inner p n m seg :
  nested p n m seg -> p <> None -> roots seg = [].
Proof.
  induction 1 as [p n | p n m c seg H IH | p n m k name inner seg Hn Hi IHi Hs IHs];
    intros Hp.
  - reflexivity.
  - simpl. now apply IH.
  - destruct p as [[pid pn]|]; [|congruence]. simpl.
    rewrite roots_app. simpl. rewrite IHi by discriminate. now rewrite IHs.
Qed.

(** ** The primitives of the sinks *)

Lemma emits_refl p w : emits p w w.
Proof. exists []. split; [now rewrite app_nil_r | constructor]. Qed.

Lemma emits_trans p w1 w2 w3 : emits p w1 w2 -> emits p w2 w3 -> emits p w1 w3.
Proof.
  intros (s1 & E1 & N1) (s2 & E2 & N2). exists (s1 ++ s2). split.
  - now rewrite E2, E1, app_assoc.
  - eapply nested_app; eauto.
Qed.

Lemma span_frame_refl w : span_frame w w.
Proof. split; [lia | reflexivity]. Qed.

Lemma span_frame_trans w1 w2 w3 : span_frame w1 w2 -> span_frame w2 w3 -> span_frame w1 w3.
Proof.
  intros [L1 F1] [L2 F2]. split; [lia|].
  intros id Hid. rewrite F2 by lia. now apply F1.
Qed.

(** ** The instrumented transport, the client and one tick *)

Lemma RoundTrip_spec env req w :
  exists tr dns tcp,
    RoundTrip env req w =
      (base_answer env req w,
       {| next_span := S (S (S (next_span w)));
          spans := <[S (S (next_span w)) := tcp]>
                     (<[S (next_span w) := dns]> (<[next_span w := tr]> (spans w)));
          events := events w ++ RoundTrip_events req w;
          logs := logs w;
          clock := S (S (clock w)) |}) /\
    closed_span tr "http.transport" (req_ctx req)
      (http_status (base_answer env req w)) (recorded (base_answer env req w)) /\
    closed_span dns "dns.resolve" (Some (next_span w))
      (plain_status (dns_answer env req w)) (recorded (dns_answer env req w)) /\
    closed_span tcp "tcp.connect" (Some (next_span w))
      (plain_status (base_answer env req w)) (recorded (base_answer env req w)).
Proof.
  unfold base_answer, dns_answer, rt_request, RoundTrip_events.
  unfold RoundTrip, bind, tracer_Start, span_End, span_SetStatus, span_SetAttributes,
    span_RecordError, update_span, emit, net_LookupIP, base_RoundTrip, time_Now,
    time_Since, tick_clock, ret, bind.
  cbn [fst snd next_span spans events logs clock WithContext req_URL req_ctx Method].
  destruct (lookupIP env (clock w) _) as [ips|e1];
    cbn [fst snd next_span spans events logs clock];
    destruct (baseRoundTrip env (S (clock w)) _) as [resp|e2];
    cbn [fst snd next_span spans events logs clock];
    try destruct (StatusCode resp >=? 400) eqn:E;
    cbn [fst snd next_span spans events logs clock];
    push_alter; rewrite <- ?app_assoc;
    (do 3 eexists; split; [reflexivity|]);
    cbn; rewrite ?E; repeat split; reflexivity.
Qed.

Lemma nested_leaf pid pname n name c :
  In (name, Some pname) span_hierarchy ->
  nested (Some (pid, pname)) n (S n) [EvStart n (Some pid) name; EvCall c; EvEnd n].
Proof.
  intros H.
  apply (nested_span (Some (pid, pname)) n (S n) (S n) name [EvCall c] []); auto.
  - repeat constructor.
  - constructor.
Qed.

Lemma RoundTrip_nested g req w :
  req_ctx req = Some g ->
  nested (Some (g, "http.get")) (next_span w) (S (S (S (next_span w))))
    (RoundTrip_events req w).
Proof.
  intros Hg. unfold RoundTrip_events. rewrite Hg.
  set (n := next_span w).
  apply (nested_span (Some (g, "http.get")) n (S (S (S n))) (S (S (S n))) "http.transport"
           [EvStart (S n) (Some n) "dns.resolve";
            EvCall (call_LookupIP (Hostname (req_URL req)));
            EvEnd (S n);
            EvStart (S (S n)) (Some n) "tcp.connect";
            EvCall (call_RoundTrip (rt_request req w));
            EvEnd (S (S n))] []).
  - simpl. tauto.
  - apply (nested_app _ _ (S (S n)) [_; _; _]).
    + apply nested_leaf. simpl. tauto.
    + apply nested_leaf. simpl. tauto.
  - constructor.
Qed.

Lemma RoundTrip_facts env req w :
  let w' := exec (RoundTrip env req) w in
  eval (RoundTrip env req) w = base_answer env req w /\
  span_frame w w' /\
  logs w' = logs w /\
  events w' = events w ++ RoundTrip_events req w /\
  next_span w' = S (S (S (next_span w))).
Proof.
  destruct (RoundTrip_spec env req w) as (tr & dns & tcp & E & _).
  unfold exec, eval. rewrite E. cbn [fst snd next_span spans events logs].
  split; [reflexivity|]. split; [|repeat split; reflexivity].
  split; cbn [next_span spans]; [lia|].
  intros id Hid. now rewrite !lookup_insert_ne by lia.
Qed.

Lemma Client_send_unfold env fuel req :
  Client_send env fuel req =
  bind (RoundTrip env req) (fun r =>
    match r with
    | Err err => ret (Err (url_Error "Get" (URL_String (req_URL req)) err))
    | Ok resp =>
        if shouldRedirect (StatusCode resp) then
          match Location resp with
          | None => ret (Ok resp)
          | Some loc =>
              bind (discard_body resp) (fun _ =>
                match fuel with
                | O => ret (Err (url_Error "Get" (URL_String loc)
                                   (errors_New "stopped after 10 redirects")))
                | S n => Client_send env n {| Method := Method req; req_URL := loc;
                                              req_ctx := req_ctx req |}
                end)
          end
        else ret (Ok resp)
    end).
Proof. destruct fuel; reflexivity. Qed.

(** Consuming the body of a redirect response only makes calls. *)
Lemma discard_body_facts resp w :
  exists w' cs,
    discard_body resp w = (tt, w') /\
    next_span w' = next_span w /\ spans w' = spans w /\ logs w' = logs w /\
    events w' = events w ++ cs /\
    Forall (fun e => exists c, e = EvCall c) cs /\
    Forall (fun c => client_call c = true) (calls cs).
Proof.
  unfold discard_body, Body_Close, bind, tick_clock, ret.
  destruct (_ || _); eexists; eexists; (split; [reflexivity|]); cbn [next_span spans logs events];
    (split; [reflexivity|]); (split; [reflexivity|]); (split; [reflexivity|]).
  - split; [now rewrite <- app_assoc|]. split; repeat constructor; eauto.
  - split; [reflexivity|]. split; repeat constructor; eauto.
Qed.

Lemma discard_body_emits p w w' cs :
  next_span w' = next_span w -> events w' = events w ++ cs ->
  Forall (fun e => exists c, e = EvCall c) cs -> emits p w w'.
Proof.
  intros Hn He Hc. exists cs. split; [exact He|]. rewrite Hn. now apply nested_calls.
Qed.

Lemma Client_send_spec env fuel : forall req w g,
  req_ctx req = Some g ->
  let w' := exec (Client_send env fuel req) w in
  span_frame w w' /\
  logs w' = logs w /\
  emits (Some (g, "http.get")) w w' /\
  forall e, eval (Client_send env fuel req) w = Err e -> exists op u e0, e = url_Error op u e0.
Proof.
  induction fuel as [|fuel IH]; intros req w g Hg;
    destruct (RoundTrip_facts env req w) as (Ev & Fr & Lg & Evs & Nx);
    cbv zeta; unfold exec, eval in *; rewrite Client_send_unfold; unfold bind;
    destruct (RoundTrip env req w) as [r w1]; cbn [fst snd] in *; subst r;
    assert (Em : emits (Some (g, "http.get")) w w1)
      by (exists (RoundTrip_events req w); split; [exact Evs|];
          rewrite Nx; now apply RoundTrip_nested);
    (destruct (base_answer env req w) as [resp|e0];
     [destruct (shouldRedirect (StatusCode resp));
      [destruct (Location resp) as [loc|]|]|]);
    cbn [ret fst snd].
  all: try (split; [assumption|split; [assumption|split; [assumption|]]];
            intros e [=]; subst; eauto; fail).
  all: destruct (discard_body_facts resp w1) as (w1' & cs & Ed & Dn & Ds & Dl & De & Dc & _);
    rewrite Ed;
    assert (Fr1 : span_frame w w1')
      by (destruct Fr as [F1 F2]; split; [lia | intros id Hid; rewrite Ds; now apply F2]);
    assert (Em1 : emits (Some (g, "http.get")) w w1')
      by (eapply emits_trans; [exact Em | eapply discard_body_emits; eauto]).
  - cbn [ret fst snd]. split; [assumption|]. split; [congruence|]. split; [assumption|].
    intros e [= <-]. eauto.
  - specialize (IH {| Method := Method req; req_URL := loc; req_ctx := req_ctx req |} w1' g Hg).
    cbv zeta in IH.
    destruct (Client_send env fuel _ w1') as [r w2]. cbn [fst snd] in *.
    destruct IH as (Fr2 & Lg2 & Em2 & Er2).
    split; [eapply span_frame_trans; eauto|].
    split; [congruence|].
    split; [eapply emits_trans; eauto | exact Er2].
Qed.

Lemma Get_spec env c ctx url w :
  let g := next_span w in
  let r := eval (Get env c ctx url) w in
  let w' := exec (Get env c ctx url) w in
  span_frame w w' /\
  (exists inner,
      events w' = events w ++ EvStart g ctx "http.get" :: inner ++ [EvEnd g] /\
      nested (Some (g, "http.get")) (S g) (next_span w') inner) /\
  (exists ls,
      logs w' = logs w ++ ls /\
      Forall (fun e => entry_level e = outcome_level r) ls /\
      (forall resp, r = Ok resp -> ls <> [])) /\
  (forall e, r = Err e ->
     exists cause, Unwrap e = Some cause /\
       ((parseURL env url = Err cause /\
         e = Errorf_w "failed to create request: " cause) \/
        (exists u w1,
            parseURL env url = Ok u /\
            eval (Client_Do env {| Method := "GET"; req_URL := u; req_ctx := Some g |}) w1
              = Err cause /\
            e = Errorf_w "failed to make request: " cause))).
Proof.
  cbv zeta. unfold eval, exec, Get, http_NewRequestWithContext, bind, tracer_Start.
  destruct (parseURL env url) as [u|e0].
  - set (w1 := {| next_span := S (next_span w) |}).
    set (req := {| Method := "GET" |}).
    pose proof (Client_send_spec env 9 req w1 (next_span w) eq_refl) as HS.
    cbv zeta in HS. unfold eval, exec in HS. fold (Client_Do env req) in HS.
    assert (HE : eval (Client_Do env req) w1 = fst (Client_Do env req w1)) by reflexivity.
    destruct (Client_Do env req w1) as [r w2]. cbn [fst snd] in HS, HE.
    destruct HS as ([Fn Fr] & Lg & (seg & Es & Ns) & Er).
    subst w1. world_simpl.
    destruct r as [resp|e]; world_simpl.
    + destruct (StatusCode resp >=? 400) eqn:E4;
        unfold span_SetAttributes, span_SetStatus, span_End, logger_Warn, logger_Info,
          logger_log, update_span, emit, bind; world_simpl.
      all: split; [split; world_simpl; [lia|];
                   intros id Hid; rewrite !lookup_alter_ne by lia;
                   rewrite Fr by lia; now rewrite lookup_insert_ne by lia|].
      all: split; [exists seg; split; [rewrite Es; now repeat (rewrite <- app_assoc; simpl)
                                      | exact Ns]|].
      all: split; [eexists; split; [rewrite Lg; reflexivity|];
                   split; [repeat constructor; cbn; now rewrite E4 | discriminate]|].
      all: intros e [=].
    + unfold span_RecordError, span_SetStatus, span_End, logger_Error,
        logger_log, update_span, emit, bind, time_Now, time_Since; world_simpl.
      split; [split; world_simpl; [lia|];
              intros id Hid; rewrite !lookup_alter_ne by lia;
              rewrite Fr by lia; now rewrite lookup_insert_ne by lia|].
      split; [exists seg; split; [rewrite Es; now repeat (rewrite <- app_assoc; simpl)
                                 | exact Ns]|].
      split; [eexists; split; [rewrite Lg; reflexivity|];
              split; [repeat constructor | discriminate]|].
      intros e' [= <-]. exists e. split; [reflexivity|]. right.
      exists u, {| next_span := S (next_span w);
                   spans := <[next_span w :=
                     {| span_name := "http.get"; span_parent := ctx;
                        span_trace := match ctx with
                                      | Some p => match spans w !! p with
                                                  | Some ps => span_trace ps
                                                  | None => next_span w
                                                  end
                                      | None => next_span w
                                      end;
                        span_attrs := [("http.method", attr_String "GET");
                                       ("http.url", attr_String url)];
                        span_status := (codes_Unset, EmptyString);
                        span_errors := []; span_ended := false |}]> (spans w);
                   events := events w ++ [EvStart (next_span w) ctx "http.get"];
                   logs := logs w; clock := clock w |}.
      repeat split; assumption.
  - unfold span_RecordError, span_SetStatus, span_End, update_span, emit, bind; world_simpl.
    split; [split; world_simpl; [lia|];
            intros id Hid; rewrite !lookup_alter_ne by lia;
            now rewrite lookup_insert_ne by lia|].
    split; [exists []; split; [now repeat (rewrite <- app_assoc; simpl) | constructor]|].
    split; [exists []; split; [now rewrite app_nil_r|]; split; [constructor | discriminate]|].
    intros e [= <-]. exists e0. split; [reflexivity|]. now left.
Qed.

Lemma makeRequest_spec env flags count w :
  let w' := exec (makeRequest env flags context_Background client log (targetURL flags) count) w in
  let r := next_span w in
  (exists inner,
      events w' = events w ++ EvStart r None "request.cycle" :: inner ++ [EvEnd r] /\
      nested (Some (r, "request.cycle")) (S r) (next_span w') inner) /\
  exists root ls,
    spans w' !! r = Some root /\ logs w' = logs w ++ ls /\ ls <> [] /\
    match probed env flags count w with
    | Err e =>
        closed_span root "request.cycle" None (codes_Error, Error e) [e] /\
        Forall (fun x => entry_level x = ErrorLevel) ls
    | Ok resp =>
        match body_read env flags count w resp with
        | Err e =>
            closed_span root "request.cycle" None (codes_Error, Error e) [e] /\
            exists ls0 x, ls = ls0 ++ [x] /\ entry_level x = ErrorLevel /\ ls0 <> [] /\
                          Forall (fun y => entry_level y = outcome_level (Ok resp)) ls0
        | Ok body =>
            closed_span root "request.cycle" None (http_status (Ok resp)) [] /\
            Forall (fun x => entry_level x = outcome_level (Ok resp)) ls
        end
    end.
Proof.
  cbv zeta.
  unfold probed, body_read, probe_world, exec, eval, makeRequest, bind, tracer_Start,
    time_Now, context_Background.
  cbn [fst snd].
  set (w1 := {| next_span := S (next_span w) |}).
  pose proof (Get_spec env client (Some (next_span w)) (targetURL flags) w1) as HG.
  cbv zeta in HG. unfold eval, exec in HG.
  destruct (Get env client (Some (next_span w)) (targetURL flags) w1) as [pr w2].
  cbn [fst snd] in HG |- *.
  destruct HG as ([Fn Fr] & (seg & Es & Ns) & (gl & Lg & Lv & Lne) & _).
  assert (Hroot : spans w2 !! next_span w = spans w1 !! next_span w)
    by (apply Fr; subst w1; cbn; lia).
  assert (Hnest : forall k tail,
             Forall (fun e => exists c, e = EvCall c) tail ->
             k = next_span w2 ->
             nested (Some (next_span w, "request.cycle")) (S (next_span w)) k
               ((EvStart (S (next_span w)) (Some (next_span w)) "http.get"
                   :: seg ++ [EvEnd (S (next_span w))]) ++ tail)).
  { intros k tail Ht ->. eapply nested_app; [|apply nested_calls; exact Ht].
    apply (nested_span (Some (next_span w, "request.cycle")) (S (next_span w))
             (next_span w2) (next_span w2) "http.get" seg []).
    - simpl. tauto.
    - exact Ns.
    - constructor. }
  subst w1. world_simpl.
  destruct pr as [resp|e].
  - unfold io_ReadAll, tick_clock. world_simpl.
    destruct (readAll env (clock w2) resp) as [body|e].
    + destruct (StatusCode resp >=? 400) eqn:E4;
        unfold span_SetAttributes, span_SetStatus, span_RecordError, span_End, traceCtx_of,
          span_TraceID, logger_Warn, logger_Info, logger_log, update_span, emit, bind,
          time_Since, Body_Close, tick_clock; world_simpl.
      all: split;
        [exists ((EvStart (S (next_span w)) (Some (next_span w)) "http.get"
                    :: seg ++ [EvEnd (S (next_span w))])
                 ++ [EvCall call_ReadAll; EvCall call_BodyClose]); split;
         [rewrite Es; now repeat (rewrite <- app_assoc; simpl)
         |apply Hnest; [repeat constructor; eauto | reflexivity]]|].
      all: rewrite !lookup_alter_eq, Hroot, lookup_insert_eq.
      all: eexists; eexists; split; [reflexivity|].
      all: split; [rewrite Lg, <- app_assoc; reflexivity|].
      all: split; [now destruct gl|].
      all: split; [unfold http_status; rewrite E4; repeat split|].
      all: apply Forall_app; split; [exact Lv|];
           repeat constructor; cbn; now rewrite E4.
    + unfold span_SetAttributes, span_SetStatus, span_RecordError, span_End, traceCtx_of,
        span_TraceID, logger_Error, logger_log, update_span, emit, bind,
        time_Since, Body_Close, tick_clock; world_simpl.
      split;
        [exists ((EvStart (S (next_span w)) (Some (next_span w)) "http.get"
                    :: seg ++ [EvEnd (S (next_span w))])
                 ++ [EvCall call_ReadAll; EvCall call_BodyClose]); split;
         [rewrite Es; now repeat (rewrite <- app_assoc; simpl)
         |apply Hnest; [repeat constructor; eauto | reflexivity]]|].
      rewrite !lookup_alter_eq, Hroot, lookup_insert_eq.
      eexists; eexists; split; [reflexivity|].
      split; [rewrite Lg, <- app_assoc; reflexivity|].
      split; [now destruct gl|].
      split; [repeat split|].
      eexists; eexists; split; [reflexivity|].
      split; [reflexivity|]. split; [apply (Lne resp eq_refl) | exact Lv].
  - unfold span_SetAttributes, span_SetStatus, span_RecordError, span_End, traceCtx_of,
      span_TraceID, logger_Error, logger_log, update_span, emit, bind; world_simpl.
    split;
      [exists ((EvStart (S (next_span w)) (Some (next_span w)) "http.get"
                  :: seg ++ [EvEnd (S (next_span w))]) ++ []); split;
       [rewrite Es; now repeat (rewrite <- app_assoc; simpl)
       |apply Hnest; [constructor | reflexivity]]|].
    rewrite !lookup_alter_eq, Hroot, lookup_insert_eq.
    eexists; eexists; split; [reflexivity|].
    split; [rewrite Lg, <- app_assoc; reflexivity|].
    split; [now destruct gl|].
    split; [repeat split|].
    apply Forall_app; split; [exact Lv | repeat constructor].
Qed.

(** ** Claims on the instrumented transport *)

Lemma RoundTrip_lookups env req w :
  let n := next_span w in
  let w' := exec (RoundTrip env req) w in
  exists tr dns tcp,
    spans w' !! n = Some tr /\ spans w' !! S n = Some dns /\ spans w' !! S (S n) = Some tcp /\
    closed_span tr "http.transport" (req_ctx req)
      (http_status (base_answer env req w)) (recorded (base_answer env req w)) /\
    closed_span dns "dns.resolve" (Some n)
      (plain_status (dns_answer env req w)) (recorded (dns_answer env req w)) /\
    closed_span tcp "tcp.connect" (Some n)
      (plain_status (base_answer env req w)) (recorded (base_answer env req w)).
Proof.
  cbv zeta. destruct (RoundTrip_spec env req w) as (tr & dns & tcp & E & Ht & Hd & Hc).
  exists tr, dns, tcp. unfold exec. rewrite E. cbn [snd spans].
  split; [now rewrite !lookup_insert_ne, lookup_insert_eq by lia|].
  split; [now rewrite lookup_insert_ne, lookup_insert_eq by lia|].
  split; [now rewrite lookup_insert_eq|]. auto.
Qed.

(** C3. When the underlying round trip succeeds, [RoundTrip] hands the
    response back with no error whatever its status. With a status of 400
    or more the transport span is set to [Error] with the message
    [HTTP <status>], which holds the status code: what follows [HTTP ] is a
    decimal numeral that reads back as the status code of the response.
    With a status below 400 the connect span and the transport span are
    both [Ok]. *)
Theorem RoundTrip_http_status (env : Env) (req : Request) (w : World) (resp : Response)
  (Hbase : base_answer env req w = Ok resp) :
  let n := next_span w in
  let w' := exec (RoundTrip env req) w in
  eval (RoundTrip env req) w = Ok resp /\
  exists tr tcp,
    spans w' !! n = Some tr /\ span_name tr = "http.transport" /\
    spans w' !! S (S n) = Some tcp /\ span_name tcp = "tcp.connect" /\
    (StatusCode resp >= 400 ->
       span_status tr = (codes_Error, "HTTP " +:+ fmt_d (StatusCode resp)) /\
       Contains (snd (span_status tr)) (fmt_d (StatusCode resp)) = true /\
       exists d, span_status tr = (codes_Error, "HTTP " +:+ d) /\
                 option_map Z.of_int (NilZero.int_of_string d) = Some (StatusCode resp)) /\
    (StatusCode resp < 400 ->
       span_status tr = (codes_Ok, EmptyString) /\
       span_status tcp = (codes_Ok, EmptyString)).
Proof.
  cbv zeta. split.
  - rewrite <- Hbase. apply RoundTrip_facts.
  - destruct (RoundTrip_lookups env req w)
      as (tr & dns & tcp & Ln & _ & Lt & (Hn & _ & Hs & _) & _ & (Hcn & _ & Hcs & _)).
    rewrite Hbase in Hs, Hcs. simpl in Hs, Hcs.
    exists tr, tcp. repeat (split; [assumption|]). split.
    + intros Hge. destruct (Z.geb_spec (StatusCode resp) 400) as [_|Hlt]; [|lia].
      split; [exact Hs|]. split.
      * rewrite Hs. simpl snd. apply (Contains_append_l "HTTP "), Contains_refl.
      * exists (fmt_d (StatusCode resp)). split; [exact Hs | apply fmt_d_reads_back].
    + intros Hlt. destruct (Z.geb_spec (StatusCode resp) 400) as [Hge|_]; [lia|].
      now split.
Qed.

Lemma RoundTrip_http_status_witness :
  let env := Samples.env_status 404 Samples.addrs_ok in
  eval (RoundTrip env Samples.sample_request) empty_World = Ok (Samples.response 404) /\
  exists tr,
    spans (exec (RoundTrip env Samples.sample_request) empty_World) !! 0%nat = Some tr /\
    span_status tr = (codes_Error, "HTTP 404").
Proof.
  cbv zeta.
  destruct (RoundTrip_http_status (Samples.env_status 404 Samples.addrs_ok)
              Samples.sample_request empty_World (Samples.response 404) eq_refl)
    as (R & tr & tcp & L & _ & _ & _ & H4 & _).
  split; [exact R|]. exists tr. split; [exact L|].
  exact (proj1 (H4 ltac:(vm_compute; discriminate))).
Defined.

(** C4. When the underlying round trip fails, the connect span and the
    transport span are both set to [Error] with the error recorded on each,
    the underlying round tripper was called once, and [RoundTrip] returns
    the very error it was given. *)
Theorem RoundTrip_propagates_error (env : Env) (req : Request) (w : World) (e : error)
  (Hbase : base_answer env req w = Err e) :
  let n := next_span w in
  let w' := exec (RoundTrip env req) w in
  eval (RoundTrip env req) w = Err e /\
  (exists tr tcp,
      spans w' !! n = Some tr /\
      closed_span tr "http.transport" (req_ctx req) (codes_Error, Error e) [e] /\
      spans w' !! S (S n) = Some tcp /\
      closed_span tcp "tcp.connect" (Some n) (codes_Error, Error e) [e]) /\
  events w' = events w ++ RoundTrip_events req w /\
  length (List.filter is_base_call (RoundTrip_events req w)) = 1%nat.
Proof.
  cbv zeta. split; [rewrite <- Hbase; apply RoundTrip_facts|].
  split; [|split; [apply RoundTrip_facts | reflexivity]].
  destruct (RoundTrip_lookups env req w) as (tr & dns & tcp & Ln & _ & Lt & Ht & _ & Hc).
  rewrite Hbase in Ht, Hc. exists tr, tcp. auto.
Qed.

Lemma RoundTrip_propagates_error_witness :
  eval (RoundTrip Samples.env_refused Samples.sample_request) empty_World
  = Err Samples.connection_refused.
Proof.
  exact (proj1 (RoundTrip_propagates_error Samples.env_refused Samples.sample_request
                  empty_World Samples.connection_refused eq_refl)).
Defined.

(** C7. When the diagnostic lookup fails, the [dns.resolve] span records
    the error, is set to [Error] and is closed; after that the transport
    opens the [tcp.connect] span and calls the underlying round tripper,
    and what [RoundTrip] returns is what that call returned: a failed
    lookup alone never makes [RoundTrip] fail. *)
Theorem RoundTrip_dns_failure (env : Env) (req : Request) (w : World) (e : error)
  (Hdns : dns_answer env req w = Err e) :
  let n := next_span w in
  let w' := exec (RoundTrip env req) w in
  (exists dns tcp,
      spans w' !! S n = Some dns /\
      closed_span dns "dns.resolve" (Some n) (codes_Error, Error e) [e] /\
      spans w' !! S (S n) = Some tcp /\
      span_name tcp = "tcp.connect" /\ span_parent tcp = Some n) /\
  events w' = events w ++ RoundTrip_events req w /\
  before (EvEnd (S n)) (EvStart (S (S n)) (Some n) "tcp.connect") (RoundTrip_events req w) /\
  before (EvStart (S (S n)) (Some n) "tcp.connect")
         (EvCall (call_RoundTrip (rt_request req w))) (RoundTrip_events req w) /\
  eval (RoundTrip env req) w = base_answer env req w /\
  (forall resp, base_answer env req w = Ok resp -> eval (RoundTrip env req) w = Ok resp).
Proof.
  cbv zeta. split.
  - destruct (RoundTrip_lookups env req w)
      as (tr & dns & tcp & _ & Ld & Lt & _ & Hd & (Hcn & Hcp & _)).
    rewrite Hdns in Hd. exists dns, tcp. auto.
  - split; [apply RoundTrip_facts|]. split; [|split; [|split]].
    + now exists [EvStart (next_span w) (req_ctx req) "http.transport";
                  EvStart (S (next_span w)) (Some (next_span w)) "dns.resolve";
                  EvCall (call_LookupIP (Hostname (req_URL req)))],
                 [],
                 [EvCall (call_RoundTrip (rt_request req w));
                  EvEnd (S (S (next_span w))); EvEnd (next_span w)].
    + now exists [EvStart (next_span w) (req_ctx req) "http.transport";
                  EvStart (S (next_span w)) (Some (next_span w)) "dns.resolve";
                  EvCall (call_LookupIP (Hostname (req_URL req)));
                  EvEnd (S (next_span w))],
                 [],
                 [EvEnd (S (S (next_span w))); EvEnd (next_span w)].
    + apply RoundTrip_facts.
    + intros resp <-. apply RoundTrip_facts.
Qed.

Lemma RoundTrip_dns_failure_witness :
  eval (RoundTrip (Samples.env_status 200 (Err Samples.no_such_host)) Samples.sample_request)
       empty_World
  = Ok (Samples.response 200).
Proof.
  exact (proj2 (proj2 (proj2 (proj2 (proj2
           (RoundTrip_dns_failure (Samples.env_status 200 (Err Samples.no_such_host))
              Samples.sample_request empty_World Samples.no_such_host eq_refl)))))
           (Samples.response 200) eq_refl).
Defined.

(** ** Claims on the probe client *)

Lemma sub_error_neq (e e' : error) : (error_size e' < error_size e)%nat -> e <> e'.
Proof. intros H ->. lia. Qed.

(** C10. An error returned by [Get] is never the error it stems from: a
    failure to build the request comes back wrapped with the prefix
    [failed to create request:], a failure of the call comes back wrapped
    with the prefix [failed to make request:]; the cause is what
    [errors.Unwrap] gives. The transport underneath returns the error of
    the underlying round trip as it is. *)
Theorem Get_wraps_errors (env : Env) (c : Client) (ctx : Context) (url : string)
  (w : World) (e : error)
  (Hget : eval (Get env c ctx url) w = Err e) :
  (exists cause,
      Unwrap e = Some cause /\ e <> cause /\
      (forall e', Unwrap cause = Some e' -> e <> e') /\
      ((parseURL env url = Err cause /\
        e = Errorf_w "failed to create request: " cause /\
        HasPrefix (Error e) "failed to create request:" = true) \/
       (exists u w1,
           parseURL env url = Ok u /\
           eval (Client_Do env {| Method := "GET"; req_URL := u;
                                  req_ctx := Some (next_span w) |}) w1 = Err cause /\
           e = Errorf_w "failed to make request: " cause /\
           HasPrefix (Error e) "failed to make request:" = true))) /\
  (forall req0 w0 e0,
      base_answer env req0 w0 = Err e0 -> eval (RoundTrip env req0) w0 = Err e0).
Proof.
  split.
  - destruct (Get_spec env c ctx url w) as (_ & _ & _ & Herr). cbv zeta in Herr.
    destruct (Herr e Hget) as (cause & Hu & Hc). exists cause.
    split; [exact Hu|].
    assert (Hsize : error_size e = S (error_size cause)).
    { destruct Hc as [(_ & ->) | (u & w1 & _ & _ & ->)]; reflexivity. }
    split; [apply sub_error_neq; lia|].
    split.
    + intros e' He'. apply sub_error_neq.
      destruct cause; simpl in He'; try discriminate; injection He' as ->; simpl in Hsize; lia.
    + destruct Hc as [(Hp & ->) | (u & w1 & Hp & Hd & ->)]; [left | right].
      * repeat split; assumption.
      * exists u, w1. repeat split; assumption.
  - intros req0 w0 e0 <-. apply RoundTrip_facts.
Qed.

Lemma Get_wraps_errors_witness :
  let e := Errorf_w "failed to make request: "
             (url_Error "Get" "http://probe.test/get" Samples.connection_refused) in
  eval (Get Samples.env_refused client context_Background "http://probe.test/get") empty_World
    = Err e /\
  exists cause, Unwrap e = Some cause /\ e <> cause.
Proof.
  cbv zeta. split; [vm_compute; reflexivity|].
  destruct (proj1 (Get_wraps_errors Samples.env_refused client context_Background
                     "http://probe.test/get" empty_World
                     (Errorf_w "failed to make request: "
                        (url_Error "Get" "http://probe.test/get" Samples.connection_refused))
                     ltac:(vm_compute; reflexivity)))
    as (cause & Hu & Hne & _).
  exists cause. split; [exact Hu | exact Hne].
Defined.

(** ** The request loop and the log *)

Section LoopLog.
Variable env : Env.
Variable flags : Flags.

Lemma tick_world p :
  world (tick env flags p) =
  exec (makeRequest env flags context_Background client log (targetURL flags) (tick_count p))
       (world p).
Proof. reflexivity. Qed.

Lemma tick_events p :
  exists inner,
    events (world (tick env flags p)) =
      events (world p) ++
      EvStart (next_span (world p)) None "request.cycle"
        :: inner ++ [EvEnd (next_span (world p))] /\
    nested (Some (next_span (world p), "request.cycle")) (S (next_span (world p)))
           (next_span (world (tick env flags p))) inner.
Proof. rewrite tick_world. apply makeRequest_spec. Qed.

Lemma tick_emits p : emits None (world p) (world (tick env flags p)).
Proof.
  destruct (tick_events p) as (inner & E & N).
  eexists. split; [exact E|].
  apply (nested_span None (next_span (world p)) (next_span (world (tick env flags p)))
           (next_span (world (tick env flags p))) "request.cycle" inner []).
  - simpl. tauto.
  - exact N.
  - constructor.
Qed.

Lemma tick_roots p :
  roots (events (world (tick env flags p))) =
  roots (events (world p)) ++ [next_span (world p)].
Proof.
  destruct (tick_events p) as (inner & E & N). rewrite E, roots_app. f_equal.
  simpl. rewrite roots_app, (nested_roots_inner _ _ _ _ N) by discriminate.
  reflexivity.
Qed.

Lemma request_loop_tick sched p :
  request_loop env flags (case_Tick :: sched) p = request_loop env flags sched (tick env flags p).
Proof. reflexivity. Qed.

Lemma request_loop_emits sched : forall p,
  emits None (world p) (world (request_loop env flags sched p)).
Proof.
  induction sched as [|c sched IH]; intros p.
  - apply emits_refl.
  - destruct c.
    + exists []. split; [simpl; now rewrite app_nil_r | constructor].
    + rewrite request_loop_tick. eapply emits_trans; [apply tick_emits | apply IH].
Qed.

Lemma request_loop_roots sched : forall p,
  length (roots (events (world (request_loop env flags sched p)))) =
  (length (roots (events (world p))) + completed_ticks sched)%nat.
Proof.
  induction sched as [|c sched IH]; intros p.
  - simpl. lia.
  - destruct c.
    + simpl. lia.
    + rewrite request_loop_tick, IH, tick_roots, length_app. simpl. lia.
Qed.

Lemma main_nested sched :
  nested None 0%nat (next_span (world (main env flags sched)))
         (events (world (main env flags sched))).
Proof.
  unfold main.
  match goal with
  | |- context [request_loop env flags sched ?p] =>
      destruct (request_loop_emits sched p) as (seg & E & N)
  end.
  rewrite E. exact N.
Qed.

Lemma main_roots sched :
  length (roots (events (world (main env flags sched)))) = completed_ticks sched.
Proof. unfold main. rewrite request_loop_roots. reflexivity. Qed.

End LoopLog.

Lemma new_logs_app w w' ls : logs w' = logs w ++ ls -> new_logs w w' = ls.
Proof. intros H. unfold new_logs. rewrite H. apply drop_app_length. Qed.

(** ** Claims on the scheduler *)

(** C5. In every tick the root span is closed and at least one
    entry is logged. When the probe hands back a response with status 200
    and its body is read without error, the root span is [Ok] and every
    entry of the tick has severity info. When it hands back a response with
    status 500 the root span is [Error] and an entry of severity warn is
    logged -- every entry of the tick, when the body is read without error.
    When the probe fails the root span is [Error] with the error recorded
    and every entry of the tick has severity error. In each case the loop
    goes on to the next case of its schedule: under [main] there are as
    many root spans as ticks the schedule completes. *)
Theorem status_classification (env : Env) (flags : Flags) (p : Proc) (sched : list Select) :
  let w := world p in
  let w' := world (tick env flags p) in
  let count := tick_count p in
  exists root,
    spans w' !! next_span w = Some root /\
    span_name root = "request.cycle" /\ span_ended root = true /\
    new_logs w w' <> [] /\
    (forall resp body,
        probed env flags count w = Ok resp ->
        body_read env flags count w resp = Ok body ->
        StatusCode resp = 200 ->
        span_status root = (codes_Ok, EmptyString) /\
        Forall (fun x => entry_level x = InfoLevel) (new_logs w w')) /\
    (forall resp,
        probed env flags count w = Ok resp ->
        StatusCode resp = 500 ->
        fst (span_status root) = codes_Error /\
        Exists (fun x => entry_level x = WarnLevel) (new_logs w w') /\
        forall body,
          body_read env flags count w resp = Ok body ->
          span_status root = (codes_Error, "HTTP 500") /\
          Forall (fun x => entry_level x = WarnLevel) (new_logs w w')) /\
    (forall e,
        probed env flags count w = Err e ->
        span_status root = (codes_Error, Error e) /\
        span_errors root = [e] /\
        Forall (fun x => entry_level x = ErrorLevel) (new_logs w w')) /\
    request_loop env flags (case_Tick :: sched) p
      = request_loop env flags sched (tick env flags p) /\
    length (roots (events (world (main env flags sched)))) = completed_ticks sched.
Proof.
  cbv zeta. rewrite tick_world.
  destruct (makeRequest_spec env flags (tick_count p) (world p))
    as (_ & root & ls & Hl & Hlogs & Hne & Hcase).
  cbv zeta in Hl, Hlogs. rewrite (new_logs_app _ _ _ Hlogs).
  exists root. split; [exact Hl|].
  assert (Hclosed : span_name root = "request.cycle" /\ span_ended root = true).
  { destruct (probed env flags (tick_count p) (world p)) as [resp|e].
    - destruct (body_read env flags (tick_count p) (world p) resp);
        destruct Hcase as ((? & _ & _ & _ & ?) & _); now split.
    - destruct Hcase as ((? & _ & _ & _ & ?) & _); now split. }
  destruct Hclosed as [Hname Hend].
  repeat (split; [assumption|]).
  split; [|split; [|split; [|split; [reflexivity | apply main_roots]]]].
  - intros resp body Hp Hb H200. rewrite Hp, Hb in Hcase.
    destruct Hcase as ((_ & _ & Hs & _) & Hlv).
    simpl in Hs, Hlv. rewrite H200 in Hs, Hlv. now split.
  - intros resp Hp H500. rewrite Hp in Hcase.
    destruct (body_read env flags (tick_count p) (world p) resp) as [body|e].
    + destruct Hcase as ((_ & _ & Hs & _) & Hlv).
      simpl in Hs, Hlv. rewrite H500 in Hs, Hlv. simpl in Hs, Hlv.
      split; [now rewrite Hs|]. split.
      * destruct ls as [|x ls]; [congruence|]. left. now inversion Hlv.
      * intros body' _. now split.
    + destruct Hcase as ((_ & _ & Hs & _) & ls0 & x & -> & Hx & Hne0 & Hlv).
      simpl in Hlv. rewrite H500 in Hlv. simpl in Hlv.
      split; [now rewrite Hs|]. split; [|intros body' [=]].
      apply Exists_app. left.
      destruct ls0 as [|y ls0]; [congruence|]. left. now inversion Hlv.
  - intros e Hp. rewrite Hp in Hcase.
    destruct Hcase as ((_ & _ & Hs & He & _) & Hlv). auto.
Qed.

Lemma status_classification_witness :
  (exists root,
      spans (world (tick (Samples.env_status 200 Samples.addrs_ok) Samples.sample_flags
                         fresh_proc)) !! 0%nat = Some root /\
      span_status root = (codes_Ok, EmptyString)) /\
  (exists root,
      spans (world (tick (Samples.env_status 500 Samples.addrs_ok) Samples.sample_flags
                         fresh_proc)) !! 0%nat = Some root /\
      span_status root = (codes_Error, "HTTP 500")) /\
  (exists root,
      spans (world (tick Samples.env_refused Samples.sample_flags fresh_proc)) !! 0%nat
        = Some root /\
      fst (span_status root) = codes_Error).
Proof.
  split; [|split].
  - destruct (status_classification (Samples.env_status 200 Samples.addrs_ok)
                Samples.sample_flags fresh_proc [])
      as (root & Hl & _ & _ & _ & H200 & _).
    exists root. split; [exact Hl|].
    exact (proj1 (H200 (Samples.response 200) "test response" ltac:(vm_compute; reflexivity) ltac:(vm_compute; reflexivity) eq_refl)).
  - destruct (status_classification (Samples.env_status 500 Samples.addrs_ok)
                Samples.sample_flags fresh_proc [])
      as (root & Hl & _ & _ & _ & _ & H500 & _).
    exists root. split; [exact Hl|].
    exact (proj1 (proj2 (proj2 (H500 (Samples.response 500)
                                  ltac:(vm_compute; reflexivity) eq_refl))
                    "test response" ltac:(vm_compute; reflexivity))).
  - destruct (status_classification Samples.env_refused Samples.sample_flags fresh_proc [])
      as (root & Hl & _ & _ & _ & _ & _ & Herr & _).
    exists root. split; [exact Hl|].
    destruct (Herr (Errorf_w "failed to make request: "
                      (url_Error "Get" "http://probe.test/get" Samples.connection_refused))
                   ltac:(vm_compute; reflexivity)) as (Hs & _). now rewrite Hs.
Defined.

(** C5 needs the body to be read: when the body of a 200 response cannot
    be read, the probe hands back a response with status 200, and the root
    span of the tick ends with status [Error] and an entry of severity
    error. *)
Lemma status_200_unread_body :
  probed Samples.env_truncated Samples.sample_flags (tick_count fresh_proc) (world fresh_proc)
    = Ok (Samples.response 200) /\
  StatusCode (Samples.response 200) = 200 /\
  exists root x,
    spans (world (tick Samples.env_truncated Samples.sample_flags fresh_proc)) !! 0%nat
      = Some root /\
    span_name root = "request.cycle" /\
    span_status root = (codes_Error, "unexpected EOF") /\
    fst (span_status root) <> codes_Ok /\
    last (logs (world (tick Samples.env_truncated Samples.sample_flags fresh_proc))) = Some x /\
    entry_level x = ErrorLevel.
Proof.
  split; [vm_compute; reflexivity|]. split; [reflexivity|].
  vm_compute. eexists. eexists. split; [reflexivity|].
  repeat split; try reflexivity. discriminate.
Qed.

(** C6. In the log of any run of [main], every span is opened once and
    closed once; a span closes strictly after it opens, opens strictly
    after its parent opens and closes strictly before its parent closes;
    the parent of a [dns.resolve] or [tcp.connect] span is an
    [http.transport] span, the parent of an [http.transport] span an
    [http.get] span, the parent of an [http.get] span a [request.cycle]
    span, and only [request.cycle] spans have no parent; of two root spans
    the earlier one is closed before the later one opens. *)
Theorem span_nesting (env : Env) (flags : Flags) (sched : list Select) :
  let evs := events (world (main env flags sched)) in
  List.NoDup (started evs) /\ List.NoDup (ended evs) /\
  (forall c q cname, In (EvStart c q cname) evs ->
     before (EvStart c q cname) (EvEnd c) evs /\
     match q with
     | None => cname = "request.cycle"
     | Some p =>
         exists pq pname,
           In (EvStart p pq pname) evs /\
           ((cname = "dns.resolve" \/ cname = "tcp.connect") /\ pname = "http.transport" \/
            cname = "http.transport" /\ pname = "http.get" \/
            cname = "http.get" /\ pname = "request.cycle") /\
           before (EvStart p pq pname) (EvStart c q cname) evs /\
           before (EvEnd c) (EvEnd p) evs
     end) /\
  (forall r1 r2 nm1 nm2,
     In (EvStart r1 None nm1) evs -> In (EvStart r2 None nm2) evs -> (r1 < r2)%nat ->
     before (EvEnd r1) (EvStart r2 None nm2) evs).
Proof.
  cbv zeta.
  destruct (nested_bracketed _ _ _ _ (main_nested env flags sched))
    as [_ _ _ S1 E1 Hclosed Hparent Hroots].
  split; [exact S1|]. split; [exact E1|]. split.
  - intros c q cname Hin. split; [now apply Hclosed|].
    destruct (Hparent _ _ _ Hin) as [[Hq Hh] | (pid & pq & pname & Hq & Hp & Hh & B1 & B2)].
    + simpl in Hq, Hh. subst q.
      destruct Hh as [H | [H | [H | [H | [H | []]]]]]; congruence.
    + subst q. exists pq, pname. split; [exact Hp|]. split; [|now split].
      simpl in Hh.
      destruct Hh as [H | [H | [H | [H | [H | []]]]]];
        try discriminate; injection H as <- <-; tauto.
  - now apply Hroots.
Qed.

Lemma span_nesting_witness :
  let evs := events (world (main (Samples.env_status 200 Samples.addrs_ok)
                                 Samples.sample_flags [case_Tick; case_Tick])) in
  before (EvEnd 3%nat) (EvEnd 2%nat) evs /\
  before (EvEnd 0%nat) (EvStart 5%nat None "request.cycle") evs.
Proof.
  cbv zeta.
  destruct (span_nesting (Samples.env_status 200 Samples.addrs_ok) Samples.sample_flags
              [case_Tick; case_Tick]) as (_ & _ & Hn & Hr).
  split.
  - destruct (Hn 3%nat (Some 2%nat) "dns.resolve" ltac:(vm_compute; tauto))
      as (_ & pq & pname & _ & _ & _ & B).
    exact B.
  - exact (Hr 0%nat 5%nat "request.cycle" "request.cycle"
              ltac:(vm_compute; tauto) ltac:(vm_compute; tauto) ltac:(lia)).
Defined.

(** * Further properties of the code *)

(** ** Strings *)

Lemma string_drop_append p s : string_drop (String.length p) (p +:+ s) = s.
Proof. induction p as [|c p IH]; [reflexivity | exact IH]. Qed.

Lemma prefix_string_drop p : forall s,
  String.prefix p s = true -> p +:+ string_drop (String.length p) s = s.
Proof.
  induction p as [|c p IH]; intros s H; [reflexivity|].
  destruct s as [|d s]; simpl in H; [discriminate|].
  destruct (ascii_dec c d) as [->|]; [|discriminate].
  change (String d (p +:+ string_drop (String.length p) s) = String d s).
  f_equal. now apply IH.
Qed.

Lemma get_append_last m c : String.get (String.length m) (m +:+ String c EmptyString) = Some c.
Proof. induction m as [|d m IH]; [reflexivity | exact IH]. Qed.

Lemma substring_append_init m s : String.substring 0 (String.length m) (m +:+ s) = m.
Proof.
  induction m as [|d m IH]; simpl.
  - now destruct s.
  - now rewrite IH.
Qed.

Lemma length_append_one m c : String.length (m +:+ String c EmptyString) = S (String.length m).
Proof. induction m as [|d m IH]; simpl; [reflexivity | now rewrite IH]. Qed.

Lemma split_last_cons p : forall d c,
  String.get (String.length p) (String d p) = Some c ->
  String d p = String.substring 0 (String.length p) (String d p) +:+ String c EmptyString.
Proof.
  induction p as [|d' p IH]; intros d c H.
  - simpl in H. injection H as ->. reflexivity.
  - change (String.get (String.length p) (String d' p) = Some c) in H.
    change (String d (String d' p) =
            String d (String.substring 0 (String.length p) (String d' p)
                        +:+ String c EmptyString)).
    f_equal. now apply IH.
Qed.

Lemma split_last p c :
  String.get (String.length p - 1) p = Some c ->
  p = String.substring 0 (String.length p - 1) p +:+ String c EmptyString.
Proof.
  destruct p as [|d p]; [discriminate|].
  replace (String.length (String d p) - 1)%nat with (String.length p) by (simpl; lia).
  apply split_last_cons.
Qed.

(** ** pkg/tracer *)

Lemma endpoint_with_scheme (h : string) :
  shouldUseInsecure ("http://" +:+ h) = true /\
  cleanEndpointURL ("http://" +:+ h) = h /\
  shouldUseInsecure ("https://" +:+ h) = false /\
  cleanEndpointURL ("https://" +:+ h) = h.
Proof.
  assert (A : String.prefix "https://" ("http://" +:+ h) = false) by reflexivity.
  assert (B : String.prefix "http://" ("https://" +:+ h) = false) by reflexivity.
  pose proof (prefix_append "http://" h) as C.
  pose proof (prefix_append "https://" h) as D.
  unfold shouldUseInsecure, cleanEndpointURL, TrimPrefix, HasPrefix.
  rewrite A, B, C, D, !string_drop_append. repeat split; reflexivity.
Qed.

(** X1. An endpoint written with a scheme decides by its scheme alone how
    the exporter connects, and what is left after the scheme is the
    address: for every [h], [http://h] is insecure and cleans to [h], and
    [https://h] is secure and cleans to [h], whatever [h] holds. *)
Theorem endpoint_scheme_decides (h : string) :
  shouldUseInsecure ("http://" +:+ h) = true /\
  cleanEndpointURL ("http://" +:+ h) = h /\
  shouldUseInsecure ("https://" +:+ h) = false /\
  cleanEndpointURL ("https://" +:+ h) = h.
Proof.
  destruct (endpoint_with_scheme h) as (H1 & H2 & H3 & H4).
  repeat split; assumption.
Qed.

(** X2. An endpoint that starts with one of the two schemes is put back
    together from the two helpers: the scheme [shouldUseInsecure] stands
    for, followed by what [cleanEndpointURL] returns. *)
Theorem endpoint_reassembled (endpoint : string)
  (Hscheme : HasPrefix endpoint "http://" = true \/ HasPrefix endpoint "https://" = true) :
  endpoint =
  (if shouldUseInsecure endpoint then "http://" else "https://") +:+ cleanEndpointURL endpoint.
Proof.
  destruct Hscheme as [H | H]; apply prefix_string_drop in H; rewrite <- H.
  - destruct (endpoint_with_scheme (string_drop (String.length "http://") endpoint))
      as (-> & -> & _). reflexivity.
  - destruct (endpoint_with_scheme (string_drop (String.length "https://") endpoint))
      as (_ & _ & -> & ->). reflexivity.
Qed.

Lemma endpoint_reassembled_witness :
  "https://example.com:4318" =
  (if shouldUseInsecure "https://example.com:4318" then "http://" else "https://")
    +:+ cleanEndpointURL "https://example.com:4318".
Proof.
  exact (endpoint_reassembled "https://example.com:4318" (or_intror eq_refl)).
Defined.

(** X3. An endpoint without a scheme is handed to the exporter as it is,
    and is insecure exactly when [localhost] or [127.0.0.1] occurs
    anywhere in it. *)
Theorem endpoint_without_scheme (endpoint : string)
  (Hhttp : HasPrefix endpoint "http://" = false)
  (Hhttps : HasPrefix endpoint "https://" = false) :
  cleanEndpointURL endpoint = endpoint /\
  shouldUseInsecure endpoint = Contains endpoint "localhost" || Contains endpoint "127.0.0.1" /\
  forall a b, shouldUseInsecure endpoint = false ->
              endpoint <> a +:+ "localhost" +:+ b.
Proof.
  unfold cleanEndpointURL, shouldUseInsecure. rewrite Hhttp, Hhttps.
  split; [reflexivity|]. split; [now destruct (_ || _)|].
  intros a b Hins ->.
  assert (Hc : Contains (a +:+ "localhost" +:+ b) "localhost" = true)
    by apply Contains_append_l, Contains_append_r.
  rewrite Hc in Hins. discriminate.
Qed.

Lemma endpoint_without_scheme_witness :
  cleanEndpointURL "example.com:4318" = "example.com:4318" /\
  shouldUseInsecure "example.com:4318" = false.
Proof.
  destruct (endpoint_without_scheme "example.com:4318" eq_refl eq_refl) as (H1 & H2 & _).
  split; [exact H1 | exact H2].
Defined.

(** ** pkg/logger *)

(** X4. [New] never fails. A level other than [debug], [warn] and [error]
    gives the level info, and a format other than [console] gives the JSON
    encoder. *)
Theorem logger_New_defaults (config : logger_Config) :
  exists core,
    logger_New config = Ok core /\
    (cfg_Level config <> "debug" -> cfg_Level config <> "warn" ->
     cfg_Level config <> "error" -> core_level core = InfoLevel) /\
    (cfg_Format config <> "console" -> core_encoder core = JSONEncoder) /\
    (cfg_Format config = "console" -> core_encoder core = ConsoleEncoder).
Proof.
  eexists. split; [reflexivity|]. simpl. unfold parse_level. split; [|split].
  - intros Hd Hw He.
    apply String.eqb_neq in Hd, Hw, He. rewrite Hd, Hw, He.
    now destruct (String.eqb _ "info").
  - intros Hf. apply String.eqb_neq in Hf. now rewrite Hf.
  - intros ->. reflexivity.
Qed.

(** X5. [Write] of the log writer reports the whole input as written and
    no error, and hands the sink one info entry [otlp_export] whose
    message is the input without its final newline: one newline is taken
    off when the input ends in one, and nothing otherwise. *)
Theorem jsonLogWriter_Write_spec (logger : Logger) (p : string) (w : World) :
  eval (jsonLogWriter_Write logger p) w = (Z.of_nat (String.length p), None) /\
  logs (exec (jsonLogWriter_Write logger p) w) =
    logs w ++ [{| entry_level := InfoLevel; entry_message := "otlp_export";
                  entry_fields := logger ++ [zap_String "message" (write_message p)] |}] /\
  (forall m, p = m +:+ nl -> write_message p = m) /\
  ((forall m, p <> m +:+ nl) -> write_message p = p).
Proof.
  split; [reflexivity|]. split; [reflexivity|]. split.
  - intros m ->. unfold write_message, nl.
    rewrite length_append_one.
    replace (S (String.length m) - 1)%nat with (String.length m) by lia.
    rewrite get_append_last, substring_append_init. reflexivity.
  - intros Hno. unfold write_message.
    destruct (0 <? String.length p)%nat; [|reflexivity]. simpl.
    destruct (String.get (String.length p - 1) p) as [c|] eqn:G; [|reflexivity].
    destruct (Ascii.eqb_spec c "010"%char) as [->|]; [|reflexivity].
    apply split_last in G. exfalso. apply (Hno _ G).
Qed.

(** ** The status state *)

(** X6. The two mutators act on separate fields: [SetReady] leaves the
    counter alone, [IncrementRequests] leaves the flag alone, and the order
    of the two calls does not matter. *)
Theorem mutators_commute (s : Health.Server) (b : bool) :
  Health.SetReady b (Health.IncrementRequests s) =
    Health.IncrementRequests (Health.SetReady b s) /\
  Health.requests (Health.SetReady b s) = Health.requests s /\
  Health.ready (Health.IncrementRequests s) = Health.ready s.
Proof. destruct b; repeat split; reflexivity. Qed.

(** X7. On a counter below the largest [int64], [IncrementRequests] adds
    exactly one; on the largest [int64] it wraps to the smallest. *)
Theorem IncrementRequests_step (s : Health.Server)
  (Hrange : int64_range (Health.requests s)) :
  Health.requests (Health.IncrementRequests s) =
    if Health.requests s =? max_int64 then - 2 ^ 63 else Health.requests s + 1.
Proof.
  unfold int64_range, max_int64 in *. simpl.
  destruct (Z.eqb_spec (Health.requests s) (2 ^ 63 - 1)) as [->|Hne].
  - reflexivity.
  - apply wrap_int64_id. unfold int64_range, max_int64. lia.
Qed.

Lemma IncrementRequests_step_witness :
  Health.requests (Health.IncrementRequests {| Health.ready := 1; Health.requests := 41 |}) = 42.
Proof.
  exact (IncrementRequests_step {| Health.ready := 1; Health.requests := 41 |}
           ltac:(unfold int64_range, max_int64; simpl; lia)).
Defined.

(** ** main *)

(** X8. [main] sets the server ready before the loop and the loop never
    clears the flag: after any schedule, whatever the probes did, the ready
    endpoint answers 200 with status [ready]; the body is spelled out
    character by character, [q] being the double quote. *)
Theorem main_stays_ready (env : Env) (flags : Flags) (sched : list Select) (now : string) :
  let w := Health.readyHandler (healthServer (main env flags sched)) now Health.NewRecorder in
  let q := String "034"%char EmptyString in
  Health.Code w = 200 /\ Health.rw_body w = Health.status_json "ready" now /\
  Health.rw_body w =
    "{" +:+ q +:+ "status" +:+ q +:+ ":" +:+ q +:+ "ready" +:+ q +:+ "," +:+
    q +:+ "timestamp" +:+ q +:+ ":" +:+ q +:+ now +:+ q +:+ "}".
Proof.
  cbv zeta. unfold Health.readyHandler. rewrite main_ready.
  split; [reflexivity|split; reflexivity].
Qed.

Lemma request_loop_done env flags pre : forall rest p,
  request_loop env flags (pre ++ case_Done :: rest) p =
  request_loop env flags (pre ++ [case_Done]) p.
Proof.
  induction pre as [|c pre IH]; intros rest p; [reflexivity|].
  destruct c; [reflexivity|]. simpl. apply IH.
Qed.

Lemma request_loop_done_last env flags sched : forall p,
  In case_Done sched ->
  last (logs (world (request_loop env flags sched p))) =
  Some {| entry_level := InfoLevel; entry_message := "Shutting down"; entry_fields := [] |}.
Proof.
  induction sched as [|c sched IH]; intros p Hin; [destruct Hin|].
  destruct c.
  - simpl. apply last_snoc.
  - destruct Hin as [H|H]; [discriminate|]. simpl. now apply IH.
Qed.

(** X9. Once the loop has taken the cancellation case it is over: whatever
    the schedule holds after the first [case_Done] -- further ticks
    included -- the process ends in the same state, no probe is made, the
    counter stays where it was, and the last entry logged is
    [Shutting down]. *)
Theorem cancellation_stops_loop (env : Env) (flags : Flags)
  (pre rest : list Select) (p : Proc) :
  request_loop env flags (pre ++ case_Done :: rest) p =
    request_loop env flags (pre ++ [case_Done]) p /\
  completed_ticks (pre ++ case_Done :: rest) = completed_ticks (pre ++ [case_Done]) /\
  last (logs (world (request_loop env flags (pre ++ case_Done :: rest) p))) =
    Some {| entry_level := InfoLevel; entry_message := "Shutting down"; entry_fields := [] |}.
Proof.
  split; [apply request_loop_done|]. split.
  - induction pre as [|c pre IH]; [reflexivity|]. destruct c; [reflexivity|].
    simpl. now rewrite IH.
  - apply request_loop_done_last, in_or_app. right. now left.
Qed.

(** ** Details of a round trip, of the client and of a tick *)

Lemma RoundTrip_details env req w :
  let n := next_span w in
  let w' := exec (RoundTrip env req) w in
  exists tr dns tcp,
    spans w' !! n = Some tr /\ spans w' !! S n = Some dns /\ spans w' !! S (S n) = Some tcp /\
    span_trace tr = trace_of (req_ctx req) w /\
    span_trace dns = trace_of (req_ctx req) w /\
    span_trace tcp = trace_of (req_ctx req) w /\
    span_attrs dns =
      ("dns.hostname", attr_String (Hostname (req_URL req))) ::
      match dns_answer env req w with
      | Ok ips => [("dns.addresses", attr_StringSlice (ipToStrings ips));
                   ("dns.duration_ms",
                    attr_Int (Milliseconds (wall env (S (clock w)) - wall env (clock w))))]
      | Err _ => []
      end /\
    span_attrs tcp =
      [("net.peer.name", attr_String (Hostname (req_URL req)));
       ("net.peer.port", attr_String (peer_port (req_URL req)))] ++
      match base_answer env req w with
      | Ok _ => [("tcp.duration_ms",
                  attr_Int (Milliseconds (wall env (S (S (clock w))) - wall env (S (clock w)))))]
      | Err _ => []
      end.
Proof.
  cbv zeta. unfold base_answer, dns_answer, rt_request, trace_of, peer_port.
  unfold exec, RoundTrip, bind, tracer_Start, span_End, span_SetStatus, span_SetAttributes,
    span_RecordError, update_span, emit, net_LookupIP, base_RoundTrip, time_Now,
    time_Since, tick_clock, ret, bind.
  cbn [fst snd next_span spans events logs clock WithContext req_URL req_ctx Method].
  destruct (lookupIP env (clock w) _) as [ips|e1];
    cbn [fst snd next_span spans events logs clock];
    destruct (baseRoundTrip env (S (clock w)) _) as [resp|e2];
    cbn [fst snd next_span spans events logs clock];
    try destruct (StatusCode resp >=? 400) eqn:E;
    cbn [fst snd next_span spans events logs clock].
  all: span_lookup.
  all: do 3 eexists.
  all: split; [reflexivity|]; split; [reflexivity|]; split; [reflexivity|].
  all: cbn [span_trace span_attrs recording span_ended span_status fst snd code_rank
            Nat.ltb Nat.leb app].
  all: repeat split; reflexivity.
Qed.

Lemma new_events_app w w' seg : events w' = events w ++ seg -> new_events w w' = seg.
Proof. intros H. unfold new_events. rewrite H. apply drop_app_length. Qed.

Lemma calls_app l r : calls (l ++ r) = calls l ++ calls r.
Proof.
  induction l as [|e l IH]; [reflexivity|].
  destruct e; simpl; now rewrite IH.
Qed.

Lemma traced_frame t w w' lo hi :
  traced t w lo hi -> span_frame w w' -> (hi <= next_span w)%nat -> traced t w' lo hi.
Proof.
  intros H [_ F] Hhi id Hid. rewrite F by lia. now apply H.
Qed.

Lemma traced_join t w lo mid hi :
  traced t w lo mid -> traced t w mid hi -> traced t w lo hi.
Proof.
  intros H1 H2 id Hid. destruct (Nat.lt_ge_cases id mid); [apply H1 | apply H2]; lia.
Qed.

Lemma RoundTrip_traced env req w :
  traced (trace_of (req_ctx req) w) (exec (RoundTrip env req) w)
         (next_span w) (S (S (S (next_span w)))).
Proof.
  destruct (RoundTrip_details env req w)
    as (tr & dns & tcp & L0 & L1 & L2 & T0 & T1 & T2 & _).
  cbv zeta in *. intros id Hid.
  assert (id = next_span w \/ id = S (next_span w) \/ id = S (S (next_span w)))
    as [-> | [-> | ->]] by lia; eauto.
Qed.

Lemma Client_send_traced env fuel : forall req w g sg,
  req_ctx req = Some g -> (g < next_span w)%nat -> spans w !! g = Some sg ->
  let w' := exec (Client_send env fuel req) w in
  traced (span_trace sg) w' (next_span w) (next_span w') /\
  exists seg, events w' = events w ++ seg /\
              Forall (fun c => client_call c = true) (calls seg) /\
              forall resp, eval (Client_send env fuel req) w = Ok resp ->
                           ends_with_round_trip (calls seg).
Proof.
  induction fuel as [|fuel IH]; intros req w g sg Hg Hlt Hsg;
    pose proof (RoundTrip_traced env req w) as Tr;
    destruct (RoundTrip_facts env req w) as (Ev & Fr & Lg & Evs & Nx);
    cbv zeta in *; unfold exec, eval in *; rewrite Client_send_unfold; unfold bind;
    destruct (RoundTrip env req w) as [r w1]; cbn [fst snd] in *; subst r;
    unfold trace_of in Tr; rewrite Hg, Hsg in Tr;
    assert (Cs : exists seg, events w1 = events w ++ seg /\
                             Forall (fun c => client_call c = true) (calls seg) /\
                             ends_with_round_trip (calls seg))
      by (exists (RoundTrip_events req w); split; [exact Evs|];
          split; [repeat constructor|];
          exists [call_LookupIP (Hostname (req_URL req))], (rt_request req w); reflexivity);
    (destruct (base_answer env req w) as [resp|e0];
     [destruct (shouldRedirect (StatusCode resp));
      [destruct (Location resp) as [loc|]|]|]);
    cbn [ret fst snd].
  all: try (split; [rewrite Nx; exact Tr|];
            destruct Cs as (seg1 & E1 & C1 & R1); exists seg1;
            split; [exact E1|]; split; [exact C1|]; intros resp0 _; exact R1; fail).
  all: destruct (discard_body_facts resp w1) as (w1' & cs & Ed & Dn & Ds & Dl & De & _ & Dc);
    rewrite Ed; destruct Cs as (seg1 & E1 & C1 & _);
    assert (Tr1 : traced (span_trace sg) w1' (next_span w) (next_span w1'))
      by (intros id Hid; rewrite Ds; apply Tr; lia).
  - cbn [ret fst snd]. split; [exact Tr1|].
    exists (seg1 ++ cs). split; [now rewrite De, E1, app_assoc|].
    split; [rewrite calls_app; now apply Forall_app|].
    intros resp0 [=].
  - assert (Hsg1 : spans w1' !! g = Some sg)
      by (rewrite Ds; destruct Fr as [_ F]; now rewrite F).
    specialize (IH {| Method := Method req; req_URL := loc; req_ctx := req_ctx req |}
                   w1' g sg Hg ltac:(lia) Hsg1).
    destruct (Client_send_spec env fuel
                {| Method := Method req; req_URL := loc; req_ctx := req_ctx req |} w1' g Hg)
      as (Fr2 & _).
    cbv zeta in IH, Fr2. unfold exec in IH, Fr2.
    destruct (Client_send env fuel _ w1') as [r w2]. cbn [fst snd] in *.
    destruct IH as (Tr2 & seg2 & E2 & C2 & R2).
    split.
    + eapply traced_join; [|exact Tr2].
      eapply traced_frame; [exact Tr1 | exact Fr2 | lia].
    + exists ((seg1 ++ cs) ++ seg2). split; [now rewrite E2, De, E1, !app_assoc|].
      split; [rewrite !calls_app; repeat (apply Forall_app; split); assumption|].
      intros resp0 Hr. destruct (R2 resp0 Hr) as (pre & rq & Hp).
      exists (calls (seg1 ++ cs) ++ pre), rq.
      rewrite calls_app, Hp. now rewrite app_assoc.
Qed.

Lemma Get_details env c ctx url w :
  let g := next_span w in
  let w1 := get_world ctx url w in
  let w' := exec (Get env c ctx url) w in
  match parseURL env url with
  | Err e0 =>
      eval (Get env c ctx url) w = Err (Errorf_w "failed to create request: " e0) /\
      next_span w' = S g /\
      events w' = events w ++ [EvStart g ctx "http.get"; EvEnd g] /\
      logs w' = logs w /\ clock w' = clock w /\
      exists s, spans w' !! g = Some s /\
                closed_span s "http.get" ctx (codes_Error, Error e0) [e0] /\
                span_trace s = trace_of ctx w
  | Ok u =>
      let req := {| Method := "GET"; req_URL := u; req_ctx := Some g |} in
      let r := eval (Client_Do env req) w1 in
      let w2 := exec (Client_Do env req) w1 in
      eval (Get env c ctx url) w =
        match r with
        | Ok resp => Ok resp
        | Err e => Err (Errorf_w "failed to make request: " e)
        end /\
      next_span w' = next_span w2 /\
      events w' = events w2 ++ [EvEnd g] /\
      (exists x, logs w' = logs w ++ [x] /\ entry_level x = outcome_level r /\
                 entry_message x = get_message r /\
                 exists fs, entry_fields x = client_logger c ++ zap_String "url" url :: fs) /\
      clock w' = clock w2 /\
      (exists s, spans w' !! g = Some s /\
                 closed_span s "http.get" ctx (http_status r) (recorded r) /\
                 span_trace s = trace_of ctx w) /\
      forall id, id <> g -> spans w' !! id = spans w2 !! id
  end.
Proof.
  cbv zeta.
  unfold get_world, trace_of, eval, exec, Get, http_NewRequestWithContext, bind, tracer_Start.
  cbn [fst snd].
  destruct (parseURL env url) as [u|e0].
  - set (w1 := {| next_span := S (next_span w) |}).
    set (req := {| Method := "GET" |}).
    pose proof (Client_send_spec env 9 req w1 (next_span w) eq_refl) as HS.
    cbv zeta in HS. unfold eval, exec in HS. fold (Client_Do env req) in HS.
    destruct (Client_Do env req w1) as [r w2]. cbn [fst snd] in HS |- *.
    destruct HS as ([Fn Fr] & Lg & _ & _).
    assert (Hg : spans w2 !! next_span w = spans w1 !! next_span w)
      by (apply Fr; subst w1; cbn [next_span]; lia).
    subst w1. world_simpl.
    destruct r as [resp|e]; world_simpl.
    + destruct (StatusCode resp >=? 400) eqn:E4;
        unfold span_SetAttributes, span_SetStatus, span_End, logger_Warn, logger_Info,
          logger_log, update_span, emit, bind; world_simpl.
      all: split; [reflexivity|]. all: split; [reflexivity|]. all: split; [reflexivity|].
      all: split; [eexists; split; [rewrite Lg; reflexivity|];
                   split; [cbn; now rewrite E4|];
                   split; [cbn; now rewrite E4 | eexists; reflexivity]|].
      all: split; [reflexivity|].
      all: split; [|intros id Hid; now rewrite !lookup_alter_ne by congruence].
      all: rewrite !lookup_alter_eq, Hg, lookup_insert_eq.
      all: eexists; split; [reflexivity|].
      all: unfold http_status; rewrite E4; repeat split.
    + unfold span_RecordError, span_SetStatus, span_End, logger_Error,
        logger_log, update_span, emit, bind, time_Now, time_Since; world_simpl.
      split; [reflexivity|]. split; [reflexivity|]. split; [reflexivity|].
      split; [eexists; split; [rewrite Lg; reflexivity|];
              split; [reflexivity|]; split; [reflexivity | eexists; reflexivity]|].
      split; [reflexivity|].
      split; [|intros id Hid; now rewrite !lookup_alter_ne by congruence].
      rewrite !lookup_alter_eq, Hg, lookup_insert_eq.
      eexists; split; [reflexivity|]. repeat split.
  - unfold span_RecordError, span_SetStatus, span_End, update_span, emit, bind; world_simpl.
    split; [reflexivity|]. split; [reflexivity|].
    split; [now rewrite <- app_assoc|]. split; [reflexivity|]. split; [reflexivity|].
    rewrite !lookup_alter_eq, lookup_insert_eq.
    eexists; split; [reflexivity|]. repeat split.
Qed.

Lemma Get_traced env c ctx url w :
  let w' := exec (Get env c ctx url) w in
  traced (trace_of ctx w) w' (next_span w) (next_span w') /\
  exists seg, events w' = events w ++ seg /\
              Forall (fun c => client_call c = true) (calls seg) /\
              forall resp, eval (Get env c ctx url) w = Ok resp ->
                           ends_with_round_trip (calls seg).
Proof.
  cbv zeta. pose proof (Get_details env c ctx url w) as D. cbv zeta in D.
  destruct (parseURL env url) as [u|e0].
  - destruct D as (Rv & Nx & Ev & _ & _ & (s & Ls & _ & Ts) & Other).
    set (req := {| Method := "GET"; req_URL := u; req_ctx := Some (next_span w) |}) in *.
    assert (W1 : exists s0, spans (get_world ctx url w) !! next_span w = Some s0 /\
                            span_trace s0 = trace_of ctx w).
    { unfold get_world, exec, tracer_Start. cbn [snd spans].
      rewrite lookup_insert_eq. eexists. split; reflexivity. }
    destruct W1 as (s0 & L0 & T0).
    assert (N1 : next_span (get_world ctx url w) = S (next_span w)) by reflexivity.
    assert (Hlt : (next_span w < next_span (get_world ctx url w))%nat) by (rewrite N1; lia).
    destruct (Client_send_traced env 9 req (get_world ctx url w) (next_span w) s0
                eq_refl Hlt L0)
      as (Tr & seg & Es & Cs & Rs).
    fold (Client_Do env req) in Tr, Es, Rs. rewrite T0 in Tr.
    split.
    + intros id Hid. destruct (Nat.eq_dec id (next_span w)) as [->|Hne].
      * exists s. now split.
      * rewrite Other by exact Hne. apply Tr.
        rewrite Nx in Hid. rewrite N1. lia.
    + exists (EvStart (next_span w) ctx "http.get" :: seg ++ [EvEnd (next_span w)]).
      split.
      * rewrite Ev, Es. unfold get_world, exec, tracer_Start. cbn [snd events].
        now repeat (rewrite <- app_assoc; simpl).
      * simpl. rewrite calls_app, app_nil_r. split; [exact Cs|].
        intros resp Hr. rewrite Hr in Rv. apply (Rs resp).
        destruct (eval (Client_Do env req) (get_world ctx url w)); congruence.
  - destruct D as (Rv & Nx & Ev & _ & _ & (s & Ls & _ & Ts)).
    split.
    + intros id Hid. rewrite Nx in Hid. assert (id = next_span w) as -> by lia.
      exists s. now split.
    + eexists. split; [exact Ev|]. split; [constructor|].
      intros resp Hr. rewrite Hr in Rv. discriminate.
Qed.

Lemma alter_keeps_trace (t : SpanID) (m : gmap SpanID Span) (lo hi i : SpanID)
      (f : Span -> Span) :
  (forall s, span_trace (f s) = span_trace s) ->
  (forall id : SpanID, (lo <= id < hi)%nat ->
     exists s, m !! id = Some s /\ span_trace s = t) ->
  forall id : SpanID, (lo <= id < hi)%nat ->
    exists s, alter f i m !! id = Some s /\ span_trace s = t.
Proof.
  intros Hf H id Hid. destruct (H id Hid) as (s & L & T).
  destruct (Nat.eq_dec i id) as [->|Hne].
  - rewrite lookup_alter_eq, L. exists (f s). split; [reflexivity|]. now rewrite Hf.
  - rewrite lookup_alter_ne by exact Hne. eauto.
Qed.

Lemma makeRequest_details env flags count w :
  let r := next_span w in
  let w' := exec (makeRequest env flags context_Background client log (targetURL flags) count) w in
  span_frame w w' /\
  traced r w' r (next_span w') /\
  (exists cs,
      Forall (fun c => client_call c = true) cs /\
      (forall resp, probed env flags count w = Ok resp -> ends_with_round_trip cs) /\
      calls (new_events w w') =
        cs ++ match probed env flags count w with
              | Ok _ => [call_ReadAll; call_BodyClose]
              | Err _ => []
              end) /\
  last (events w') = Some (EvEnd r) /\
  (exists x fs,
      last (logs w') = Some x /\
      entry_fields x = zap_String "trace_id" (TraceID_String env r)
                         :: zap_String "span_id" (SpanID_String env r) :: fs) /\
  exists root more,
    spans w' !! r = Some root /\
    span_attrs root = cycle_attributes flags (targetURL flags) count ++ more /\
    forall resp body,
      probed env flags count w = Ok resp ->
      body_read env flags count w resp = Ok body ->
      In ("request.success", attr_Bool (StatusCode resp <? 400)) more /\
      In ("http.status_code", attr_Int (StatusCode resp)) more /\
      In ("response.size", attr_Int (Z.of_nat (String.length body))) more.
Proof.
  cbv zeta.
  unfold probed, body_read, probe_world, new_events, exec, eval, makeRequest, bind,
    tracer_Start, time_Now, context_Background.
  cbn [fst snd].
  set (w1 := {| next_span := S (next_span w) |}).
  pose proof (Get_spec env client (Some (next_span w)) (targetURL flags) w1) as HG.
  pose proof (Get_traced env client (Some (next_span w)) (targetURL flags) w1) as HT.
  cbv zeta in HG, HT. unfold eval, exec in HG, HT.
  destruct (Get env client (Some (next_span w)) (targetURL flags) w1) as [pr w2].
  cbn [fst snd] in HG, HT |- *.
  destruct HG as ([Fn Fr] & _).
  destruct HT as (Tr & seg & Es & Cs & Rs).
  assert (Hroot : spans w2 !! next_span w = spans w1 !! next_span w)
    by (apply Fr; subst w1; cbn; lia).
  assert (Ht : trace_of (Some (next_span w)) w1 = next_span w)
    by (unfold trace_of; subst w1; cbn [spans]; now rewrite lookup_insert_eq).
  rewrite Ht in Tr.
  assert (Htr : forall id : SpanID,
             (next_span w <= id < next_span w2)%nat ->
             exists s, spans w2 !! id = Some s /\ span_trace s = next_span w).
  { intros id Hid. destruct (Nat.eq_dec id (next_span w)) as [->|Hne].
    - rewrite Hroot. subst w1. cbn [spans]. rewrite lookup_insert_eq.
      eexists. split; reflexivity.
    - apply Tr. subst w1. cbn [next_span]. lia. }
  assert (Hfr : forall id : SpanID, (id < next_span w)%nat ->
                  spans w2 !! id = spans w !! id).
  { intros id Hid. rewrite Fr by (subst w1; cbn [next_span]; lia).
    subst w1. cbn [spans]. now rewrite lookup_insert_ne by lia. }
  subst w1. world_simpl.
  destruct pr as [resp|e].
  - unfold io_ReadAll, tick_clock. world_simpl.
    destruct (readAll env (clock w2) resp) as [body|e] eqn:Er.
    + destruct (StatusCode resp >=? 400) eqn:E4;
        unfold span_SetAttributes, span_SetStatus, span_RecordError, span_End, traceCtx_of,
          span_TraceID, logger_Warn, logger_Info, logger_log, update_span, emit, bind,
          time_Since, Body_Close, tick_clock; world_simpl.
      all: split; [split; cbn [next_span spans]; [lia|]; intros id Hid;
                   rewrite !lookup_alter_ne by lia; now apply Hfr|].
      all: split; [unfold traced; cbn [spans];
                   repeat (apply alter_keeps_trace; [trace_kept|]); exact Htr|].
      all: split; [exists (calls seg); split; [exact Cs|]; split; [exact Rs|];
                   rewrite Es; repeat rewrite <- app_assoc; rewrite drop_app_length, !calls_app; reflexivity|].
      all: split; [rewrite ?app_assoc; apply last_snoc|].
      all: rewrite !lookup_alter_eq, Hroot, lookup_insert_eq.
      all: split; [eexists; eexists; split; [apply last_snoc | reflexivity]|].
      all: eexists; eexists; split; [reflexivity|].
      all: split; [reflexivity|].
      all: intros resp' body' [= <-] Hb; rewrite Er in Hb; injection Hb as <-; cbn; tauto.
    + unfold span_SetAttributes, span_SetStatus, span_RecordError, span_End, traceCtx_of,
        span_TraceID, logger_Error, logger_log, update_span, emit, bind,
        time_Since, Body_Close, tick_clock; world_simpl.
      split; [split; cbn [next_span spans]; [lia|]; intros id Hid;
                   rewrite !lookup_alter_ne by lia; now apply Hfr|].
      split; [unfold traced; cbn [spans];
              repeat (apply alter_keeps_trace; [trace_kept|]); exact Htr|].
      split; [exists (calls seg); split; [exact Cs|]; split; [exact Rs|];
              rewrite Es; repeat rewrite <- app_assoc; rewrite drop_app_length, !calls_app; reflexivity|].
      split; [rewrite ?app_assoc; apply last_snoc|].
      rewrite !lookup_alter_eq, Hroot, lookup_insert_eq.
      split; [eexists; eexists; split; [apply last_snoc | reflexivity]|].
      eexists; exists []; split; [reflexivity|].
      split; [cbn; rewrite ?app_nil_r; reflexivity|].
      intros resp' body' [= <-] Hb; rewrite Er in Hb; discriminate.
  - unfold span_SetAttributes, span_SetStatus, span_RecordError, span_End, traceCtx_of,
      span_TraceID, logger_Error, logger_log, update_span, emit, bind; world_simpl.
    split; [split; cbn [next_span spans]; [lia|]; intros id Hid;
                   rewrite !lookup_alter_ne by lia; now apply Hfr|].
    split; [unfold traced; cbn [spans];
            repeat (apply alter_keeps_trace; [trace_kept|]); exact Htr|].
    split; [exists (calls seg); split; [exact Cs|]; split; [exact Rs|];
            rewrite Es; repeat rewrite <- app_assoc;
            rewrite drop_app_length, !calls_app, !app_nil_r; reflexivity|].
    split; [rewrite ?app_assoc; apply last_snoc|].
    rewrite !lookup_alter_eq, Hroot, lookup_insert_eq.
    split; [eexists; eexists; split; [apply last_snoc | reflexivity]|].
    eexists; exists []; split; [reflexivity|].
    split; [cbn; rewrite ?app_nil_r; reflexivity|].
    intros resp' body' [=].
Qed.

(** ** The instrumented transport *)

(** X10. Whatever the lookup and the underlying call return, a round trip
    opens exactly three spans and leaves all three closed, makes one lookup
    and then one underlying call, hands nothing to the log sink and leaves
    every span that existed before as it was. *)
Theorem RoundTrip_footprint (env : Env) (req : Request) (w : World) :
  let n := next_span w in
  let w' := exec (RoundTrip env req) w in
  new_spans w w' = [n; S n; S (S n)] /\
  (forall id, In id (new_spans w w') ->
     exists s, spans w' !! id = Some s /\ span_ended s = true) /\
  calls (new_events w w') =
    [call_LookupIP (Hostname (req_URL req)); call_RoundTrip (rt_request req w)] /\
  logs w' = logs w /\
  span_frame w w'.
Proof.
  cbv zeta.
  destruct (RoundTrip_facts env req w) as (_ & Fr & Lg & Evs & Nx). cbv zeta in *.
  destruct (RoundTrip_lookups env req w)
    as (tr & dns & tcp & L0 & L1 & L2 & (_ & _ & _ & _ & E0) & (_ & _ & _ & _ & E1)
        & (_ & _ & _ & _ & E2)).
  cbv zeta in *.
  assert (Hn : new_spans w (exec (RoundTrip env req) w)
               = [next_span w; S (next_span w); S (S (next_span w))]).
  { unfold new_spans. rewrite Nx.
    replace (S (S (S (next_span w))) - next_span w)%nat with 3%nat by lia. reflexivity. }
  split; [exact Hn|]. split; [|split; [|split; assumption]].
  - rewrite Hn. intros id [<- | [<- | [<- | []]]]; eauto.
  - now rewrite (new_events_app _ _ _ Evs).
Qed.

(** X11. The [tcp.connect] span names the peer by the host of the URL and
    by a port: the port of the URL when it has one, otherwise 443 for the
    scheme [https] and 80 for any other scheme. It carries a duration only
    when the underlying call succeeded. *)
Theorem RoundTrip_connect_attributes (env : Env) (req : Request) (w : World) :
  let u := req_URL req in
  let w' := exec (RoundTrip env req) w in
  exists tcp port,
    spans w' !! S (S (next_span w)) = Some tcp /\
    In ("net.peer.name", attr_String (Hostname u)) (span_attrs tcp) /\
    In ("net.peer.port", attr_String port) (span_attrs tcp) /\
    (Port u <> EmptyString -> port = Port u) /\
    (Port u = EmptyString -> Scheme u = "https" -> port = "443") /\
    (Port u = EmptyString -> Scheme u <> "https" -> port = "80") /\
    ((exists d, In ("tcp.duration_ms", attr_Int d) (span_attrs tcp)) <->
     exists resp, base_answer env req w = Ok resp).
Proof.
  cbv zeta.
  destruct (RoundTrip_details env req w) as (tr & dns & tcp & _ & _ & L2 & _ & _ & _ & _ & A).
  cbv zeta in *. exists tcp, (peer_port (req_URL req)).
  split; [exact L2|]. rewrite A.
  split; [now left|]. split; [right; now left|].
  unfold peer_port. split; [|split; [|split]].
  - intros H. apply String.eqb_neq in H. now rewrite H.
  - intros -> ->. reflexivity.
  - intros -> H. apply String.eqb_neq in H. simpl. now rewrite H.
  - destruct (base_answer env req w) as [resp|e]; split.
    + eauto.
    + intros _. eexists. right. right. now left.
    + intros (d & [H | [H | []]]); discriminate.
    + intros (resp & H). discriminate.
Qed.

(** X12. The [dns.resolve] span names the host looked up; when the lookup
    succeeds it lists one address per IP returned, each in its textual
    form and in the order returned, and when the lookup fails it lists
    none. *)
Theorem RoundTrip_dns_attributes (env : Env) (req : Request) (w : World) :
  let w' := exec (RoundTrip env req) w in
  exists dns,
    spans w' !! S (next_span w) = Some dns /\
    In ("dns.hostname", attr_String (Hostname (req_URL req))) (span_attrs dns) /\
    match dns_answer env req w with
    | Ok ips =>
        In ("dns.addresses", attr_StringSlice (ipToStrings ips)) (span_attrs dns) /\
        length (ipToStrings ips) = length ips /\
        forall i ip, ips !! i = Some ip -> ipToStrings ips !! i = Some (IP_String ip)
    | Err _ =>
        forall v, ~ In ("dns.addresses", v) (span_attrs dns)
    end.
Proof.
  cbv zeta.
  destruct (RoundTrip_details env req w) as (tr & dns & tcp & _ & L1 & _ & _ & _ & _ & A & _).
  cbv zeta in *. exists dns. split; [exact L1|]. rewrite A. split; [now left|].
  destruct (dns_answer env req w) as [ips|e].
  - split; [right; now left|]. unfold ipToStrings. split; [apply length_map|].
    intros i ip H. rewrite list_lookup_fmap, H. reflexivity.
  - intros v [H | []]. discriminate.
Qed.

(** ** The probe client *)

(** X13. When the request cannot be built, [Get] makes no call at all: it
    opens and closes its own span and nothing else, sets that span to
    [Error] with the parse error recorded, logs nothing, and returns the
    wrapped error. *)
Theorem Get_construction_failure (env : Env) (c : Client) (ctx : Context) (url : string)
  (w : World) (e0 : error)
  (Hparse : parseURL env url = Err e0) :
  let g := next_span w in
  let w' := exec (Get env c ctx url) w in
  eval (Get env c ctx url) w = Err (Errorf_w "failed to create request: " e0) /\
  new_events w w' = [EvStart g ctx "http.get"; EvEnd g] /\
  calls (new_events w w') = [] /\
  new_spans w w' = [g] /\
  logs w' = logs w /\ clock w' = clock w /\
  exists s, spans w' !! g = Some s /\
            closed_span s "http.get" ctx (codes_Error, Error e0) [e0].
Proof.
  cbv zeta. pose proof (Get_details env c ctx url w) as D. cbv zeta in D.
  rewrite Hparse in D. destruct D as (R & Nx & Ev & Lg & Ck & s & Ls & Cl & _).
  rewrite (new_events_app _ _ _ Ev).
  repeat (split; [assumption || reflexivity|]). split.
  - unfold new_spans. rewrite Nx.
    replace (S (next_span w) - next_span w)%nat with 1%nat by lia. reflexivity.
  - repeat (split; [assumption|]). eauto.
Qed.

Lemma Get_construction_failure_witness :
  eval (Get Samples.env_malformed client context_Background "::") empty_World
  = Err (Errorf_w "failed to create request: " Samples.missing_scheme).
Proof.
  exact (proj1 (Get_construction_failure Samples.env_malformed client context_Background
                  "::" empty_World Samples.missing_scheme eq_refl)).
Defined.

(** X14. When the request is built, [Get] returns what the call returned:
    a response as it is -- also one with a status of 400 or more, which is
    no error -- and a failure wrapped. Its span is closed with [Ok] for a
    status below 400, [Error] and [HTTP <status>] for a status of 400 or
    more -- [HTTP ] followed by a decimal numeral that reads back as the
    status code -- and [Error] and the error recorded for a failure; one
    entry goes to the client's logger, with severity info, warn or error
    in the same three cases. *)
Theorem Get_outcome (env : Env) (c : Client) (ctx : Context) (url : string)
  (w : World) (u : URL)
  (Hparse : parseURL env url = Ok u) :
  let g := next_span w in
  let w' := exec (Get env c ctx url) w in
  let r := eval (Client_Do env {| Method := "GET"; req_URL := u; req_ctx := Some g |})
                (get_world ctx url w) in
  eval (Get env c ctx url) w =
    match r with
    | Ok resp => Ok resp
    | Err e => Err (Errorf_w "failed to make request: " e)
    end /\
  (exists s, spans w' !! g = Some s /\
             closed_span s "http.get" ctx (http_status r) (recorded r) /\
             forall resp, r = Ok resp -> StatusCode resp >= 400 ->
               exists d, span_status s = (codes_Error, "HTTP " +:+ d) /\
                         option_map Z.of_int (NilZero.int_of_string d)
                         = Some (StatusCode resp)) /\
  exists x, new_logs w w' = [x] /\
            entry_level x = outcome_level r /\
            entry_message x = get_message r.
Proof.
  cbv zeta. pose proof (Get_details env c ctx url w) as D. cbv zeta in D.
  rewrite Hparse in D.
  destruct D as (R & _ & _ & (x & Lg & Lv & Lm & _) & _ & (s & Ls & Cl & _) & _).
  split; [exact R|]. split.
  - exists s. split; [exact Ls|]. split; [exact Cl|].
    intros resp Hr Hge. destruct Cl as (_ & _ & Hs & _).
    rewrite Hr in Hs. unfold http_status in Hs.
    destruct (Z.geb_spec (StatusCode resp) 400) as [_|Hlt]; [|lia].
    exists (fmt_d (StatusCode resp)). split; [exact Hs | apply fmt_d_reads_back].
  - exists x. rewrite (new_logs_app _ _ _ Lg). auto.
Qed.

Lemma Get_outcome_witness :
  eval (Get (Samples.env_status 404 Samples.addrs_ok) client context_Background
            "http://probe.test/get") empty_World
  = Ok (Samples.response 404).
Proof.
  exact (proj1 (Get_outcome (Samples.env_status 404 Samples.addrs_ok) client
                  context_Background "http://probe.test/get" empty_World
                  Samples.sample_url eq_refl)).
Defined.


(** ** One tick *)


(** X17. The last entry a tick logs -- the scheduler's own -- carries the
    trace identifier and the span identifier of the root span of that
    tick, in that order, before any other field. *)
Theorem tick_log_correlated (env : Env) (flags : Flags) (p : Proc) :
  let root := next_span (world p) in
  exists x fs,
    last (logs (world (tick env flags p))) = Some x /\
    entry_fields x = zap_String "trace_id" (TraceID_String env root)
                       :: zap_String "span_id" (SpanID_String env root) :: fs.
Proof.
  cbv zeta. rewrite tick_world.
  destruct (makeRequest_details env flags (tick_count p) (world p))
    as (_ & _ & _ & _ & H & _).
  exact H.
Qed.

(** X18. Every span a tick opens belongs to one trace, the trace of the
    root span of that tick; the spans of earlier ticks are left as they
    were, so a later tick is a different trace. *)
Theorem tick_single_trace (env : Env) (flags : Flags) (p : Proc) :
  let w := world p in
  let w' := world (tick env flags p) in
  (next_span w < next_span w')%nat /\
  (forall id, In id (new_spans w w') ->
     exists s, spans w' !! id = Some s /\ span_trace s = next_span w) /\
  (forall id s, (id < next_span w)%nat -> spans w !! id = Some s ->
     spans w' !! id = Some s).
Proof.
  cbv zeta. rewrite tick_world.
  destruct (makeRequest_details env flags (tick_count p) (world p))
    as ([Hle Fr] & Tr & _).
  destruct (makeRequest_spec env flags (tick_count p) (world p)) as ((inner & Ev & Ns) & _).
  cbv zeta in *.
  pose proof (br_le _ _ _ _ (nested_bracketed _ _ _ _ Ns)) as Hlt.
  split; [lia|]. split.
  - intros id Hid. apply Tr. unfold new_spans in Hid. apply in_seq in Hid. lia.
  - intros id s Hid Hs. now rewrite Fr.
Qed.

(** X19. The root span of a tick carries the number of the tick, the
    target URL and the interval in milliseconds; when the response is read
    it also carries the status code, whether that status is below 400, and
    the number of bytes read. *)
Theorem tick_root_attributes (env : Env) (flags : Flags) (p : Proc) :
  let w := world p in
  let w' := world (tick env flags p) in
  exists root,
    spans w' !! next_span w = Some root /\
    In ("request.count", attr_Int (tick_count p)) (span_attrs root) /\
    In ("request.target_url", attr_String (targetURL flags)) (span_attrs root) /\
    In ("request.interval_ms", attr_Int (Milliseconds (interval flags))) (span_attrs root) /\
    forall resp body,
      probed env flags (tick_count p) w = Ok resp ->
      body_read env flags (tick_count p) w resp = Ok body ->
      In ("request.success", attr_Bool (StatusCode resp <? 400)) (span_attrs root) /\
      In ("http.status_code", attr_Int (StatusCode resp)) (span_attrs root) /\
      In ("response.size", attr_Int (Z.of_nat (String.length body))) (span_attrs root).
Proof.
  cbv zeta. rewrite tick_world.
  destruct (makeRequest_details env flags (tick_count p) (world p))
    as (_ & _ & _ & _ & _ & root & more & Lr & Ha & Hm).
  cbv zeta in *. exists root. split; [exact Lr|]. rewrite Ha.
  split; [apply in_or_app; left; simpl; tauto|].
  split; [apply in_or_app; left; simpl; tauto|].
  split; [apply in_or_app; left; simpl; tauto|].
  intros resp body Hp Hb. destruct (Hm resp body Hp Hb) as (H1 & H2 & H3).
  repeat split; apply in_or_app; now right.
Qed.

Lemma request_loop_requestCount env flags sched : forall p,
  int64_range (requestCount p) ->
  requestCount (request_loop env flags sched p) =
  wrap_int64 (requestCount p + Z.of_nat (completed_ticks sched)).
Proof.
  induction sched as [|c sched IH]; intros p Hp.
  - simpl. rewrite Z.add_0_r. now rewrite wrap_int64_id.
  - destruct c.
    + simpl. rewrite Z.add_0_r. now rewrite wrap_int64_id.
    + change (request_loop env flags (case_Tick :: sched) p)
        with (request_loop env flags sched (tick env flags p)).
      rewrite IH by apply wrap_int64_range.
      change (completed_ticks (case_Tick :: sched)) with (S (completed_ticks sched)).
      simpl requestCount. rewrite wrap_int64_add_l. f_equal. lia.
Qed.

(** X20. The tick number kept by [main] and the request counter of the
    status state never part: after any schedule, whatever the probes did,
    the two are equal, and both count the completed ticks (wrapping
    together at the end of the [int64] range). *)
Theorem counters_agree (env : Env) (flags : Flags) (sched : list Select) :
  requestCount (main env flags sched) =
    Health.requests (healthServer (main env flags sched)) /\
  requestCount (main env flags sched) = wrap_int64 (Z.of_nat (completed_ticks sched)).
Proof.
  assert (H : requestCount (main env flags sched)
              = wrap_int64 (Z.of_nat (completed_ticks sched))).
  { unfold main. rewrite request_loop_requestCount; [reflexivity|].
    unfold int64_range, max_int64. simpl. lia. }
  split; [|exact H]. now rewrite H, main_requests.
Qed.
